(** * chantastik: lyric timing derivation and the render session of the player

    A shallow embedding of the client code that the player component and the
    data-access layer run:

    - [Timing]: [totalFrames] of [LyricsPlayer] and the line-to-frame
      derivation [parseLines] it consumes;
    - [Session]: [handleRenderVideo] of [LyricsPlayer], its two EventSource
      handlers, the trigger button's [disabled] expression, and [renderVideo]
      of [data/api.ts], which the render mutation runs;
    - [Api]: [extractLyricsFromVideo] of [data/api.ts].

    JavaScript numbers are modelled by [JS.number]: NaN, the two infinities
    and finite values carried as rationals. Products and sums are rounded to
    the nearest binary64 value, ties to even, with overflow to an infinity
    ([JS.round]); only the sign of zero is abstracted away. *)

From Stdlib Require Import QArith Qround Lqa Qpower Qreduction.
From stdpp Require Import base numbers list strings gmap.

Local Open Scope Z_scope.

(** ** JavaScript values used by the player *)
Module JS.

Inductive number : Type :=
  | NaN
  | NegInfinity
  | Finite (q : Q)
  | PosInfinity.

Definition ofZ (z : Z) : number := Finite (inject_Z z).

(** Sign of a rational, as [Z.sgn] of its numerator. *)
Definition Qsgn (q : Q) : Z := Z.sgn (Qnum q).

(** [ToBoolean] on numbers: NaN and zero are falsy. *)
Definition truthy (x : number) : bool :=
  match x with
  | NaN => false
  | Finite q => negb (Qsgn q =? 0)
  | NegInfinity | PosInfinity => true
  end.

(** [x || d] where [x] may be [undefined] ([None]). *)
Definition or_else (x : option number) (d : number) : number :=
  match x with
  | Some v => if truthy v then v else d
  | None => d
  end.

(** *** Rounding to binary64 *)

(** [floor (log2 q)] for a positive [q]. *)
Definition Qlog2 (q : Q) : Z :=
  let k := Z.log2 (Qnum q) - Z.log2 (Zpos (Qden q)) in
  if Qle_bool (2 ^ k) q then k else k - 1.

(** Exponent of the unit in the last place of the binade of a positive [q]:
    53 significant bits, and no exponent below that of the subnormals. *)
Definition ulp_exponent (q : Q) : Z := Z.max (Qlog2 q - 52) (-1074).

(** The nearest integer, ties to the even one. *)
Definition nearest_even (x : Q) : Z :=
  let f := Qfloor x in
  match (x - inject_Z f ?= 1 # 2)%Q with
  | Lt => f
  | Gt => f + 1
  | Eq => if Z.even f then f else f + 1
  end.

(** A positive [q] rounded to a multiple of its unit in the last place. *)
Definition nearest_double (q : Q) : Q :=
  let e := ulp_exponent q in
  (inject_Z (nearest_even (q / 2 ^ e)) * 2 ^ e)%Q.

Definition round_canonical (q : Q) : number :=
  match (q ?= 0)%Q with
  | Eq => Finite 0
  | Gt => let r := nearest_double q in
          if Qle_bool (2 ^ 1024) r then PosInfinity else Finite (Qred r)
  | Lt => let r := nearest_double (- q) in
          if Qle_bool (2 ^ 1024) r then NegInfinity else Finite (Qred (- r))
  end.

(** The binary64 value the exact result [q] of an operation is rounded to:
    round to nearest, ties to even; a magnitude that rounds to 2^1024 or
    more becomes an infinity. *)
Definition round (q : Q) : number := round_canonical (Qred q).

Definition signed_infinity (s : Z) : number :=
  if s =? 0 then NaN else if 0 <? s then PosInfinity else NegInfinity.

(** [x * y] *)
Definition mul (x y : number) : number :=
  match x, y with
  | NaN, _ | _, NaN => NaN
  | Finite a, Finite b => round (a * b)
  | Finite a, PosInfinity | PosInfinity, Finite a => signed_infinity (Qsgn a)
  | Finite a, NegInfinity | NegInfinity, Finite a => signed_infinity (- Qsgn a)
  | PosInfinity, PosInfinity | NegInfinity, NegInfinity => PosInfinity
  | PosInfinity, NegInfinity | NegInfinity, PosInfinity => NegInfinity
  end.

(** [x + y] *)
Definition add (x y : number) : number :=
  match x, y with
  | NaN, _ | _, NaN => NaN
  | Finite a, Finite b => round (a + b)
  | PosInfinity, NegInfinity | NegInfinity, PosInfinity => NaN
  | PosInfinity, _ | _, PosInfinity => PosInfinity
  | NegInfinity, _ | _, NegInfinity => NegInfinity
  end.

(** [Math.ceil]; the ceiling of a binary64 value is one again. *)
Definition Math_ceil (x : number) : number :=
  match x with
  | Finite q => ofZ (Qceiling q)
  | other => other
  end.

(** The nearest integer, ties towards +Infinity, as [Math.round] picks it. *)
Definition round_half_up (q : Q) : Z := Qfloor (q + (1 # 2)).

(** [Math.max] of two arguments. *)
Definition Math_max (x y : number) : number :=
  match x, y with
  | NaN, _ | _, NaN => NaN
  | PosInfinity, _ | _, PosInfinity => PosInfinity
  | NegInfinity, other | other, NegInfinity => other
  | Finite a, Finite b => if Qle_bool a b then Finite b else Finite a
  end.

(** [x <= y]: false as soon as one side is NaN. *)
Definition le (x y : number) : bool :=
  match x, y with
  | NaN, _ | _, NaN => false
  | NegInfinity, _ | _, PosInfinity => true
  | _, NegInfinity | PosInfinity, _ => false
  | Finite a, Finite b => Qle_bool a b
  end.

End JS.

(** ** The timing deriver *)
Module Timing.
Import JS.

(** The frame rate the player hard-codes. *)
Definition frameRate : Z := 30.

(** Modelled from the spec: the type of an entry of [LyricsProps.lyrics]
    lives in [remotion/schema], which is not among the sources. Section 3
    ([DerivedLyricLine]): a text, an integer start frame and an integer end
    frame. *)
Record DerivedLyricLine : Type := {
  text : string;
  startFrame : Z;
  endFrame : Z
}.

(** The audio element behind [audioRef]; only [duration] is read. *)
Record HTMLAudioElement : Type := { duration : number }.

(** [audioRef.current?.duration] *)
Definition current_duration (current : option HTMLAudioElement) : option number :=
  duration <$> current.

(** The body of the [useMemo] that computes [totalFrames]. After the length
    test the index [length - 1] is in range; the [None] branch stands for the
    TypeError that reading [endFrame] of [undefined] would raise and is never
    taken ([lastLine_in_range]). An [endFrame] is an integer that its number
    field holds exactly. *)
Definition totalFrames (current : option HTMLAudioElement)
    (lyricsData : list DerivedLyricLine) : number :=
  if (length lyricsData =? 0)%nat then ofZ 0
  else
    let audioDuration := or_else (current_duration current) (ofZ 0) in
    let audioFrames := Math_ceil (mul audioDuration (ofZ 30)) in
    match lyricsData !! (length lyricsData - 1)%nat with
    | Some lastLine =>
        let lastLyricFrame := ofZ (endFrame lastLine) in
        add (Math_max audioFrames lastLyricFrame) (ofZ 30)
    | None => NaN
    end.

(** The audio duration in seconds as the specification words it: the
    element's duration, and 0 when it is unknown (no element, or NaN). *)
Definition audioDurationSeconds (current : option HTMLAudioElement) : number :=
  match current with
  | None => ofZ 0
  | Some el => match duration el with NaN => ofZ 0 | d => d end
  end.

(** Modelled from the spec: [LyricLine] is declared in [data/types], which
    is not among the sources. Section 3: a text, a start time in seconds and
    an optional explicit end. *)
Record LyricLine : Type := {
  line_text : string;
  startTimeSeconds : Q;
  explicitEnd : option Q
}.

Section Deriver.
(** The default length, in frames, given to a last line without an explicit
    end, and the frame an explicit end stands for. The specification names
    both and fixes neither. *)
Variable defaultDuration : Z.
Variable explicitEndFrame : Q -> Z.

(** [round(startTimeSeconds * frameRate)] *)
Definition toFrame (seconds : Q) : Z :=
  round_half_up (seconds * inject_Z frameRate).

(** End frame of a line that has no successor. *)
Definition closingFrame (line : LyricLine) : Z :=
  match explicitEnd line with
  | Some e => explicitEndFrame e
  | None => toFrame (startTimeSeconds line) + defaultDuration
  end.

(** Modelled from the spec: [parseLines] of [remotion/Root] is imported by
    the player but its file is not among the sources. Section 4.1: for each
    line, startFrame = round(startTimeSeconds * frameRate); endFrame =
    startFrame of the next line, or, for the last line, startFrame + a
    default duration if no explicit end is supplied. *)
Fixpoint parseLines (lyricLines : list LyricLine) : list DerivedLyricLine :=
  match lyricLines with
  | [] => []
  | line :: rest =>
      {| text := line_text line;
         startFrame := toFrame (startTimeSeconds line);
         endFrame := match rest with
                     | next :: _ => toFrame (startTimeSeconds next)
                     | [] => closingFrame line
                     end |}
      :: parseLines rest
  end.
End Deriver.

End Timing.

(** ** The render session of the player *)
Module Session.
Import JS Timing.

(** Values produced by [JSON.parse] and [response.json()]. The members of an
    object are kept in the order of the text; as in [JSON.parse] a later
    duplicate of a name overrides an earlier one. *)
#[local] Unset Elimination Schemes.
Inductive json : Type :=
  | JNull
  | JBool (b : bool)
  | JNumber (q : Q)
  | JString (s : string)
  | JArray (items : list json)
  | JObject (members : list (string * json)).
#[local] Set Elimination Schemes.

(** A JavaScript value that may be [undefined] ([None]). *)
Abbreviation value := (option json).

(** Thrown values. Everything thrown on the paths modelled here is an
    instance of [Error] (TypeError, SyntaxError, [new Error(..)]), so the
    [error instanceof Error] tests of [api.ts] always take the message. *)
Record Error : Type := { name : string; message : string }.

Definition TypeError (msg : string) : Error :=
  {| name := "TypeError"; message := msg |}.

(** What the browser supplies: the JSON parser and the string conversion of
    numbers (used by template literals and [new Error(..)]). *)
Class Host : Type := {
  JSON_parse : string -> Error + json;
  Number_toString : Q -> string
}.

(** [ToBoolean] *)
Definition ToBoolean (v : value) : bool :=
  match v with
  | None | Some JNull => false
  | Some (JBool b) => b
  | Some (JNumber q) => negb (Qsgn q =? 0)
  | Some (JString s) => negb (String.eqb s EmptyString)
  | Some (JArray _) | Some (JObject _) => true
  end.

(** Own member [p] of an object. *)
Definition member (members : list (string * json)) (p : string) : value :=
  snd <$> last (filter (fun kv => fst kv = p) members).

(** [ToString] of a value that came out of [JSON.parse]. An object is
    converted by [Object.prototype.toString] unless it has a member named
    toString: that member is not callable, the inherited valueOf returns the
    object itself (or is hidden by a member that is not callable either), and
    the conversion throws. An array is joined with commas, its null elements
    as empty strings, and an element that cannot be converted makes the whole
    conversion throw. *)
Fixpoint ToString_json `{Host} (v : json) : Error + string :=
  match v with
  | JNull => inr "null"
  | JBool true => inr "true"
  | JBool false => inr "false"
  | JNumber q => inr (Number_toString q)
  | JString s => inr s
  | JArray items =>
      (fix join (l : list json) : Error + string :=
         match l with
         | [] => inr EmptyString
         | x :: rest =>
             match (match x with
                    | JNull => inr EmptyString
                    | _ => ToString_json x
                    end) with
             | inl e => inl e
             | inr first =>
                 match rest with
                 | [] => inr first
                 | _ :: _ =>
                     match join rest with
                     | inl e => inl e
                     | inr others => inr (first +:+ "," +:+ others)
                     end
                 end
             end
         end) items
  | JObject members =>
      match member members "toString" with
      | Some _ => inl (TypeError "Cannot convert object to primitive value")
      | None => inr "[object Object]"
      end
  end.

(** [ToString] *)
Definition ToString `{Host} (v : value) : Error + string :=
  match v with
  | None => inr "undefined"
  | Some j => ToString_json j
  end.

(** [v.p] for the property names the player and [api.ts] read ([type],
    [message], [metadata], [title], [artist], [fileName]): none of them is
    inherited, so only objects answer; reading from [null] throws. *)
Definition get (v : json) (p : string) : Error + value :=
  match v with
  | JNull => inl (TypeError ("Cannot read properties of null (reading '" +:+ p +:+ "')"))
  | JObject members => inr (member members p)
  | _ => inr None
  end.

(** [v?.p] *)
Definition get_optional (v : value) (p : string) : value :=
  match v with
  | None | Some JNull => None
  | Some (JObject members) => member members p
  | Some _ => None
  end.

(** [v || d] *)
Definition or_default (v : value) (d : json) : json :=
  match v with
  | Some x => if ToBoolean v then x else d
  | None => d
  end.

(** [v === s] for a string literal [s]. *)
Definition is_string (v : value) (s : string) : bool :=
  match v with
  | Some (JString t) => String.eqb t s
  | _ => false
  end.

(** *** sonner toasts *)
Inductive ToastKind : Type := Success | Failure.

Record Toast : Type := {
  kind : ToastKind;
  title : string;
  description : json
}.

(** *** The world the handlers act on *)

(** An [EventSource] object: its URL, whether [close()] has taken effect,
    and how often [close()] was called on it. *)
Record EventSource : Type := {
  url : string;
  closed : bool;
  closeCalls : nat
}.

(** The object built by the [renderInputProps] memo. *)
Record LyricsProps : Type := {
  lyrics : list DerivedLyricLine;
  backgroundImage : string;
  audioSrc : string
}.

(** The argument of [renderVideoMutation.mutate] and of [renderVideo]. *)
Record RenderParams : Type := {
  compositionId : string;
  inputProps : LyricsProps;
  outputFileName : string;
  params_totalFrames : number
}.

(** A call of [renderVideoMutation.mutate] and whether its request has
    settled. *)
Record Submission : Type := {
  params : RenderParams;
  settled : bool
}.

(** [localStorage], the toasts shown so far, every [EventSource] constructed
    so far (its index is its handle), the submissions made so far, and the
    [renderProgress] state of the component ([JNull] is [null]). *)
Record World : Type := {
  localStorage : gmap string string;
  toasts : list Toast;
  eventSources : list EventSource;
  submissions : list Submission;
  renderProgress : json
}.

(** Modelled from the spec: [AudioMeta] is declared in [data/types], which
    is not among the sources; it is the audio reference of the application
    store, and only its [id] is read here. *)
Record AudioMeta : Type := { id : string }.

(** The values one render of [LyricsPlayer] closes over. *)
Record Closure : Type := {
  lyricsData : list DerivedLyricLine;
  audio : option AudioMeta;
  renderInputProps : LyricsProps;
  closure_totalFrames : number
}.

(** *** Computations on the world that may throw *)
Inductive completion (A : Type) : Type :=
  | Normal (a : A)
  | Throw (e : Error).
Arguments Normal {A} a.
Arguments Throw {A} e.

Definition M (A : Type) : Type := World -> completion A * World.

Definition ret {A} (a : A) : M A := fun w => (Normal a, w).

Definition throw {A} (e : Error) : M A := fun w => (Throw e, w).

Definition bind {A B} (m : M A) (k : A -> M B) : M B :=
  fun w =>
    match m w with
    | (Normal a, w') => k a w'
    | (Throw e, w') => (Throw e, w')
    end.

Definition try_catch {A} (m : M A) (handler : Error -> M A) : M A :=
  fun w =>
    match m w with
    | (Normal a, w') => (Normal a, w')
    | (Throw e, w') => handler e w'
    end.

Definition lift {A} (r : Error + A) : M A :=
  match r with
  | inl e => throw e
  | inr a => ret a
  end.

Definition modify (f : World -> World) : M unit := fun w => (Normal tt, f w).

Notation "x <- m ;; k" := (bind m (fun x => k))
  (at level 100, m at next level, right associativity).
Notation "m ;; k" := (bind m (fun _ => k))
  (at level 100, right associativity).

(** *** Primitive effects *)
Definition push_toast (t : Toast) (w : World) : World :=
  {| localStorage := localStorage w;
     toasts := toasts w ++ [t];
     eventSources := eventSources w;
     submissions := submissions w;
     renderProgress := renderProgress w |}.

Definition toast_success (ttl : string) (descr : json) : M unit :=
  modify (push_toast {| kind := Success; title := ttl; description := descr |}).

Definition toast_error (ttl : string) (descr : json) : M unit :=
  modify (push_toast {| kind := Failure; title := ttl; description := descr |}).

Definition set_eventSources (l : list EventSource) (w : World) : World :=
  {| localStorage := localStorage w;
     toasts := toasts w;
     eventSources := l;
     submissions := submissions w;
     renderProgress := renderProgress w |}.

(** [new EventSource(u)]; the result is the handle of the new object. *)
Definition new_EventSource (u : string) : M nat :=
  fun w =>
    (Normal (length (eventSources w)),
     set_eventSources
       (eventSources w ++ [{| url := u; closed := false; closeCalls := 0 |}]) w).

Definition close_source (es : EventSource) : EventSource :=
  {| url := url es; closed := true; closeCalls := S (closeCalls es) |}.

(** [eventSource.close()] *)
Definition close (handle : nat) : M unit :=
  modify (fun w => set_eventSources (alter close_source handle (eventSources w)) w).

(** [setRenderProgress(v)] *)
Definition setRenderProgress (v : json) : M unit :=
  modify (fun w =>
    {| localStorage := localStorage w;
       toasts := toasts w;
       eventSources := eventSources w;
       submissions := submissions w;
       renderProgress := v |}).

Definition set_submissions (l : list Submission) (w : World) : World :=
  {| localStorage := localStorage w;
     toasts := toasts w;
     eventSources := eventSources w;
     submissions := l;
     renderProgress := renderProgress w |}.

(** Modelled from the spec: the hook [use-render-video] behind
    [renderVideoMutation] is not among the sources. Following section 6
    (the submission is one HTTP POST whose errors surface as rejected calls),
    [mutate] starts [renderVideo] of [api.ts] with its argument; the request
    settles in a later turn (the [Settle] event of [step]). *)
Definition mutate (p : RenderParams) : M unit :=
  modify (fun w =>
    set_submissions (submissions w ++ [{| params := p; settled := false |}]) w).

(** [localStorage.getItem(key)]: [None] is [null]. *)
Definition getItem (key : string) : M (option string) :=
  fun w => (Normal (localStorage w !! key), w).

(** *** The player's render trigger *)
Section Player.
Context `{Host}.

(** [!stored] for the result of [getItem]: [null] and the empty string are
    falsy. *)
Definition is_falsy (stored : option string) : bool :=
  match stored with
  | None => true
  | Some s => String.eqb s EmptyString
  end.

Definition cannotRender : Toast :=
  {| kind := Failure;
     title := "Cannot render video";
     description := JString "Please ensure audio is loaded and lyrics are added" |}.

(** The template literal that names the output file. *)
Definition fileName_of (audioMetadata : json) : Error + string :=
  match get audioMetadata "metadata" with
  | inl e => inl e
  | inr metadata =>
      match ToString (Some (or_default (get_optional metadata "title")
                                       (JString "lyrics"))) with
      | inl e => inl e
      | inr title =>
          match ToString (Some (or_default (get_optional metadata "artist")
                                           (JString "unknown"))) with
          | inl e => inl e
          | inr artist => inr (title +:+ "-" +:+ artist +:+ ".mp4")
          end
      end
  end.

(** [eventSource.onmessage], for the source with the given handle. *)
Definition onmessage (eventSource : nat) (event_data : string) : M unit :=
  data <- lift (JSON_parse event_data) ;;
  setRenderProgress data ;;
  type <- lift (get data "type") ;;
  if is_string type "complete" then
    toast_success "Video rendered successfully!"
      (JString "Your lyric video is ready for download") ;;
    close eventSource ;;
    setRenderProgress JNull
  else if is_string type "error" then
    msg <- lift (get data "message") ;;
    toast_error "Render failed" (or_default msg (JString "Unknown error occurred")) ;;
    close eventSource ;;
    setRenderProgress JNull
  else ret tt.

(** [eventSource.onerror] *)
Definition onerror (eventSource : nat) : M unit :=
  toast_error "Connection error" (JString "Lost connection to render server") ;;
  close eventSource ;;
  setRenderProgress JNull.

(** [handleRenderVideo]. Past the test, [storedAudioMetadata] is a non-empty
    string, so the [None] case of the inner match is never taken. The two
    handlers are attached by passing the new handle to [onmessage] and
    [onerror] when the browser dispatches ([step]). *)
Definition handleRenderVideo (c : Closure) : M unit :=
  storedAudioMetadata <- getItem "currentAudioMetadata" ;;
  if is_falsy storedAudioMetadata || (length (lyricsData c) =? 0)%nat then
    modify (push_toast cannotRender)
  else
    match storedAudioMetadata with
    | None => ret tt
    | Some stored =>
        audioMetadata <- lift (JSON_parse stored) ;;
        fileName <- lift (fileName_of audioMetadata) ;;
        eventSource <- new_EventSource "http://localhost:3000/render-progress" ;;
        mutate {| compositionId := "LyricsPlayer";
                  inputProps := renderInputProps c;
                  outputFileName := fileName;
                  params_totalFrames := closure_totalFrames c |}
    end.

(** [isRendering] *)
Definition isRendering (w : World) : bool :=
  match renderProgress w with
  | JNull => false
  | _ => true
  end.

(** The [disabled] attribute of the render button:
    [isRendering || !audio?.id || lyricsData.length === 0]. *)
Definition disabled (c : Closure) (w : World) : bool :=
  isRendering w
  || negb (match audio c with
           | Some a => negb (String.eqb (id a) EmptyString)
           | None => false
           end)
  || (length (lyricsData c) =? 0)%nat.

(** *** [renderVideo] of [api.ts] *)

(** What [response.json()] settles to, with the [ok] flag. *)
Record Response : Type := {
  ok : bool;
  body : Error + json
}.

(** What [fetch] settles to. *)
Inductive Fetch : Type :=
  | Rejects (e : Error)
  | Resolves (r : Response).

Definition new_Error (msg : string) : Error :=
  {| name := "Error"; message := msg |}.

(** The body of [renderVideo] from the point where [fetch] has settled. *)
Definition renderVideo (f : Fetch) : M json :=
  try_catch
    (response <- lift (match f with Rejects e => inl e | Resolves r => inr r end) ;;
     if negb (ok response) then
       errorData <- lift (body response) ;;
       msg <- lift (get errorData "message") ;;
       text <- lift (ToString (Some (or_default msg (JString "Render failed")))) ;;
       throw (new_Error text)
     else
       result <- lift (body response) ;;
       fileName <- lift (get result "fileName") ;;
       text <- lift (ToString fileName) ;;
       toast_success "Render completed"
         (JString ("Video rendered successfully: " +:+ text)) ;;
       ret result)
    (fun error =>
       toast_error "Render failed" (JString (message error)) ;;
       throw error).

Definition settle_submission (sub : Submission) : Submission :=
  {| params := params sub; settled := true |}.

(** *** What can happen to the player *)
Inductive Event : Type :=
  | StorageChange (storage : gmap string string)
  | Click (c : Closure)
  | Message (eventSource : nat) (event_data : string)
  | ConnectionError (eventSource : nat)
  | Settle (submission : nat) (f : Fetch).

Definition is_open (w : World) (handle : nat) : bool :=
  match eventSources w !! handle with
  | Some es => negb (closed es)
  | None => false
  end.

Definition is_pending (w : World) (k : nat) : bool :=
  match submissions w !! k with
  | Some sub => negb (settled sub)
  | None => false
  end.

Definition set_localStorage (storage : gmap string string) (w : World) : World :=
  {| localStorage := storage;
     toasts := toasts w;
     eventSources := eventSources w;
     submissions := submissions w;
     renderProgress := renderProgress w |}.

(** One turn of the event loop. Other parts of the application may rewrite
    [localStorage]; the browser runs [onClick] only on an enabled button,
    dispatches to an [EventSource] only while it is not closed, and settles
    a request once. An exception that escapes a handler ends the turn; the
    effects made before it stay. What the mutation does with the settled
    promise of [renderVideo] is not modelled. *)
Definition step (e : Event) (w : World) : World :=
  match e with
  | StorageChange storage => set_localStorage storage w
  | Click c =>
      if disabled c w then w else snd (handleRenderVideo c w)
  | Message handle event_data =>
      if is_open w handle then snd (onmessage handle event_data w) else w
  | ConnectionError handle =>
      if is_open w handle then snd (onerror handle w) else w
  | Settle k f =>
      if is_pending w k
      then snd (renderVideo f
                  (set_submissions (alter settle_submission k (submissions w)) w))
      else w
  end.

Definition run (events : list Event) (w : World) : World :=
  foldl (fun acc e => step e acc) w events.

(** The world before anything has happened. *)
Definition initial (storage : gmap string string) : World :=
  {| localStorage := storage;
     toasts := [];
     eventSources := [];
     submissions := [];
     renderProgress := JNull |}.

(** The worlds the player can be in. *)
Definition reachable (w : World) : Prop :=
  exists (storage : gmap string string) (events : list Event),
    w = run events (initial storage).

(** The events that end the session of a source, with the kind of toast each
    one calls for: a pushed payload whose [type] is ['complete'] or
    ['error'], and a transport error of the channel. *)
Inductive terminal (handle : nat) : Event -> ToastKind -> Prop :=
  | terminal_complete (event_data : string) (data : json) :
      JSON_parse event_data = inr data ->
      get data "type" = inr (Some (JString "complete")) ->
      terminal handle (Message handle event_data) Success
  | terminal_error (event_data : string) (data : json) :
      JSON_parse event_data = inr data ->
      get data "type" = inr (Some (JString "error")) ->
      terminal handle (Message handle event_data) Failure
  | terminal_transport :
      terminal handle (ConnectionError handle) Failure.

(** A source is consistent when [close()] was called on it once if it is
    closed and never if it is open. *)
Definition consistent (es : EventSource) : Prop :=
  closeCalls es = if closed es then 1%nat else 0%nat.

(** A render that differs only in the audio of the application store. *)
Definition with_audio (a : option AudioMeta) (c : Closure) : Closure :=
  {| lyricsData := lyricsData c;
     audio := a;
     renderInputProps := renderInputProps c;
     closure_totalFrames := closure_totalFrames c |}.

(** Whether a call of [handleRenderVideo] shows the validation toast. *)
Definition surfaces_cannotRender (c : Closure) (w : World) : Prop :=
  toasts (snd (handleRenderVideo c w)) = toasts w ++ [cannotRender].

End Player.

End Session.

(** ** The lyric extraction call of the data layer *)
Module Api.
Import Session.

(** What [extractLyricsFromVideo] hands to [fetch]; the body is the object
    given to [JSON.stringify]. *)
Record Request : Type := {
  request_url : string;
  method : string;
  request_body : json
}.

Definition emptyResult : json :=
  JObject [("lyrics", JArray []);
           ("source", JString "none");
           ("confidence", JNumber 0)].

Section Extract.
(** [API_BASE_URL] is read from the build environment; [fetch] is the
    network. *)
Variable API_BASE_URL : string.
Variable fetch : Request -> Fetch.

(** The request [extractLyricsFromVideo] makes. *)
Definition extract_request (videoId title channelTitle : string) : Request :=
  {| request_url := API_BASE_URL +:+ "/lyrics/extract";
     method := "POST";
     request_body := JObject [("videoId", JString videoId);
                              ("title", JString title);
                              ("channelTitle", JString channelTitle)] |}.

(** The [try] block of [extractLyricsFromVideo]. *)
Definition extract_attempt (videoId title channelTitle : string) : Error + json :=
  match fetch (extract_request videoId title channelTitle) with
  | Rejects e => inl e
  | Resolves response =>
      if negb (ok response) then inl (new_Error "Failed to extract lyrics")
      else body response
  end.

(** [extractLyricsFromVideo]: the errors passed to [console.warn] and how the
    returned promise settles. *)
Definition extractLyricsFromVideo (videoId title channelTitle : string)
    : list Error * completion json :=
  match extract_attempt videoId title channelTitle with
  | inr result => ([], Normal result)
  | inl error => ([error], Normal emptyResult)
  end.

End Extract.

(** A request fails when [fetch] rejects (network error) or resolves to a
    response that is not ok. *)
Definition request_failed (f : Fetch) : bool :=
  match f with
  | Rejects _ => true
  | Resolves response => negb (ok response)
  end.

End Api.

(** ** A host and sample data for the examples *)
Module Demo.
Import JS Timing Session.

(** Payload texts the sample parser knows (written without their quotation
    marks), with the value each parses to. *)
Definition payloads : list (string * json) :=
  [ ("{metadata:{title:Song,artist:Band}}",
     JObject [("metadata", JObject [("title", JString "Song");
                                    ("artist", JString "Band")])]);
    ("{type:bundling}", JObject [("type", JString "bundling")]);
    ("{type:rendering,progress:0.5}",
     JObject [("type", JString "rendering"); ("progress", JNumber (1 # 2))]);
    ("{type:complete,downloadUrl:x}",
     JObject [("type", JString "complete"); ("downloadUrl", JString "x")]);
    ("{type:error,message:boom}",
     JObject [("type", JString "error"); ("message", JString "boom")]) ].

Definition parse (text : string) : Error + json :=
  match snd <$> list_find (fun kv => fst kv = text) payloads with
  | Some (_, v) => inr v
  | None => inl {| name := "SyntaxError"; message := "Unexpected token" |}
  end.

#[local] Instance host : Host :=
  {| JSON_parse := parse;
     Number_toString := fun _ => "0" |}.

Definition lineA : DerivedLyricLine :=
  {| text := "a"; startFrame := 0; endFrame := 60 |}.

Definition lineB : DerivedLyricLine :=
  {| text := "b"; startFrame := 60; endFrame := 150 |}.

Definition props : LyricsProps :=
  {| lyrics := [lineA; lineB];
     backgroundImage := "http://localhost:8000/api/audio/7/cover/7";
     audioSrc := "http://localhost:8000/api/audio/7" |}.

(** A render of the player with two lyric lines and an audio in the store. *)
Definition ready : Closure :=
  {| lyricsData := [lineA; lineB];
     audio := Some {| id := "7" |};
     renderInputProps := props;
     closure_totalFrames := ofZ 180 |}.

(** The same render without an audio in the store. *)
Definition noStoreAudio : Closure :=
  {| lyricsData := [lineA; lineB];
     audio := None;
     renderInputProps := props;
     closure_totalFrames := ofZ 180 |}.

(** A render without lyric lines. *)
Definition noLyrics : Closure :=
  {| lyricsData := [];
     audio := Some {| id := "7" |};
     renderInputProps := props;
     closure_totalFrames := ofZ 0 |}.

Definition storageWithAudio : gmap string string :=
  {[ "currentAudioMetadata" := "{metadata:{title:Song,artist:Band}}" ]}.

Definition storageWithEmptyEntry : gmap string string :=
  {[ "currentAudioMetadata" := EmptyString ]}.

(** The submission is turned down by the renderer. *)
Definition turnedDown : Fetch :=
  Resolves {| ok := false;
              body := inr (JObject [("message", JString "Composition not found")]) |}.

(** The renderer cannot be reached. *)
Definition unreachable : Fetch :=
  Rejects (TypeError "Failed to fetch").

End Demo.

(** ** The rest of the data layer: URLs and the other request wrappers *)
Module DataLayer.
Import Session.

(** What is left of [s] after the prefix [p], when [s] starts with [p]. *)
Fixpoint strip_prefix (p s : string) : option string :=
  match p, s with
  | EmptyString, _ => Some s
  | String a p', String b s' =>
      if Ascii.eqb a b then strip_prefix p' s' else None
  | String _ _, EmptyString => None
  end.

(** [s.replace(p, '')] for a string [p]: the leftmost occurrence of [p] is
    taken out, and [s] is returned as it is when there is none. *)
Fixpoint remove_first (p s : string) : string :=
  match strip_prefix p s with
  | Some rest => rest
  | None =>
      match s with
      | EmptyString => EmptyString
      | String c s' => String c (remove_first p s')
      end
  end.

(** A string-or-undefined value inside a template literal. *)
Definition template (v : option string) : string :=
  match v with
  | Some s => s
  | None => "undefined"
  end.

(** [getAudioUrl] *)
Definition getAudioUrl (base id : string) : string :=
  base +:+ "/audio/" +:+ id.

(** [getCoverArtUrl]; its argument is optional. *)
Definition getCoverArtUrl (base : string) (id : option string) : string :=
  base +:+ "/audio/" +:+ template id +:+ "/cover/"
       +:+ template (remove_first "youtube-virtual-" <$> id).

(** The URL [getAudioMetadata] fetches. *)
Definition getAudioMetadata_url (base id : string) : string :=
  base +:+ "/audio/" +:+ id +:+ "/meta/" +:+ remove_first "youtube-virtual-" id.

(** [await fetch(..)] *)
Definition await_fetch (f : Fetch) : M Response :=
  lift (match f with Rejects e => inl e | Resolves r => inr r end).

(** The toast each [catch] block shows. *)
Definition failure_toast (ttl : string) (error : Error) : Toast :=
  {| kind := Failure; title := ttl; description := JString (message error) |}.

(** [getAllProjects], from the point where [fetch] has settled. *)
Definition getAllProjects (f : Fetch) : M json :=
  try_catch
    (response <- await_fetch f ;;
     if negb (ok response) then throw (new_Error "Failed to fetch projects")
     else
       data <- lift (body response) ;;
       ret data)
    (fun error =>
       toast_error "Projects fetch failed" (JString (message error)) ;;
       throw error).

(** [saveLyrics]; the result is the pair of [lyricsId] and [projectId]. *)
Definition saveLyrics (f : Fetch) : M (value * value) :=
  try_catch
    (response <- await_fetch f ;;
     if negb (ok response) then throw (new_Error "Failed to save lyrics")
     else
       result <- lift (body response) ;;
       toast_success "Lyrics saved" (JString "Lyrics have been successfully saved") ;;
       lyricsId <- lift (get result "lyricsId") ;;
       projectId <- lift (get result "projectId") ;;
       ret (lyricsId, projectId))
    (fun error =>
       toast_error "Lyrics save failed" (JString (message error)) ;;
       throw error).

(** [getLyrics] *)
Definition getLyrics (f : Fetch) : M json :=
  try_catch
    (response <- await_fetch f ;;
     if negb (ok response) then throw (new_Error "Failed to fetch lyrics")
     else
       data <- lift (body response) ;;
       ret data)
    (fun error =>
       toast_error "Lyrics fetch failed" (JString (message error)) ;;
       throw error).

(** [deleteProject] *)
Definition deleteProject (f : Fetch) : M unit :=
  try_catch
    (response <- await_fetch f ;;
     if negb (ok response) then throw (new_Error "Failed to delete project")
     else
       toast_success "Project deleted"
         (JString "Project has been successfully deleted"))
    (fun error =>
       toast_error "Project deletion failed" (JString (message error)) ;;
       throw error).

(** [getAudioMetadata] *)
Definition getAudioMetadata (f : Fetch) : M json :=
  try_catch
    (response <- await_fetch f ;;
     if negb (ok response) then throw (new_Error "Failed to fetch audio metadata")
     else
       data <- lift (body response) ;;
       ret data)
    (fun error =>
       toast_error "Metadata fetch failed" (JString (message error)) ;;
       throw error).

(** [uploadAudioFile]: no [try], no toast. *)
Definition uploadAudioFile `{Host} (f : Fetch) : M json :=
  response <- await_fetch f ;;
  if negb (ok response) then
    error <- lift (body response) ;;
    msg <- lift (get error "message") ;;
    text <- lift (ToString (Some (or_default msg (JString "Upload failed")))) ;;
    throw (new_Error text)
  else lift (body response).

(** The quotation mark of the toast texts. *)
Definition dquote : string := String (Ascii.ascii_of_nat 34) EmptyString.

(** [createProjectFromYouTube]; of the video only the title is used once the
    request is on its way. *)
Definition createProjectFromYouTube (video_title : string) (f : Fetch) : M json :=
  try_catch
    (response <- await_fetch f ;;
     if negb (ok response) then
       throw (new_Error "Failed to create project from YouTube video")
     else
       result <- lift (body response) ;;
       toast_success "Project created!"
         (JString ("Added " +:+ dquote +:+ video_title +:+ dquote
                            +:+ " to your projects")) ;;
       ret result)
    (fun error =>
       toast_error "Project creation failed" (JString (message error)) ;;
       throw error).

(** A computation reports its rejections under the title [ttl] when every
    run that throws ends with the failure toast for the thrown error. *)
Definition reports_rejections {A : Type} (ttl : string) (m : M A) : Prop :=
  forall (w w' : World) (e : Error),
    m w = (Throw e, w') ->
    exists shown : list Toast,
      toasts w' = toasts w ++ shown ++ [failure_toast ttl e].

End DataLayer.

(** ** Worlds the properties of the player are stated with *)
Module Views.
Import Session.

(** The world with [renderProgress] replaced. *)
Definition with_progress (v : json) (w : World) : World :=
  {| localStorage := localStorage w;
     toasts := toasts w;
     eventSources := eventSources w;
     submissions := submissions w;
     renderProgress := v |}.

(** The source [handleRenderVideo] constructs. *)
Definition fresh_source : EventSource :=
  {| url := "http://localhost:3000/render-progress";
     closed := false;
     closeCalls := 0 |}.

(** The job [handleRenderVideo] submits for a render and an output name. *)
Definition job (c : Closure) (fileName : string) : Submission :=
  {| params := {| compositionId := "LyricsPlayer";
                  inputProps := renderInputProps c;
                  outputFileName := fileName;
                  params_totalFrames := closure_totalFrames c |};
     settled := false |}.

(** The world with one more open source and one more pending job. *)
Definition session_opened (c : Closure) (fileName : string) (w : World) : World :=
  {| localStorage := localStorage w;
     toasts := toasts w;
     eventSources := eventSources w ++ [fresh_source];
     submissions := submissions w ++ [job c fileName];
     renderProgress := renderProgress w |}.

End Views.

(** ** A second sample host *)
Module Samples.
Import Session.

(** The sample parser of [Demo], which also knows the text 'null'. *)
Definition parse_with_null (text : string) : Error + json :=
  if String.eqb text "null" then inr JNull else Demo.parse text.

#[local] Instance host : Host :=
  {| JSON_parse := parse_with_null;
     Number_toString := fun _ => "0" |}.

End Samples.

(** * Properties *)

(** ** Arithmetic of [JS.number] *)
Module JSFacts.
Import JS.

Lemma Qsgn_zero (q : Q) : Qsgn q = 0 -> (q == 0)%Q.
Proof.
  unfold Qsgn, Qeq. destruct q as [n d]; simpl.
  intros Hs. apply (proj1 (Z.sgn_null_iff n)) in Hs. rewrite Hs. reflexivity.
Qed.

Lemma le_Finite (a b : Q) : le (Finite a) (Finite b) = true <-> (a <= b)%Q.
Proof. simpl. apply Qle_bool_iff. Qed.

Lemma le_ofZ (a b : Z) : le (ofZ a) (ofZ b) = true <-> a <= b.
Proof. unfold ofZ. by rewrite le_Finite, <- Zle_Qle. Qed.

Lemma le_refl (x : number) : x <> NaN -> le x x = true.
Proof.
  destruct x as [| |q|]; try done.
  intros _. apply le_Finite. apply Qle_refl.
Qed.

Lemma le_trans (x y z : number) :
  le x y = true -> le y z = true -> le x z = true.
Proof.
  destruct x as [| |a|], y as [| |b|], z as [| |c|]; simpl; try done.
  rewrite !Qle_bool_iff. apply Qle_trans.
Qed.

(** *** Rounding to binary64 keeps the order *)
Lemma pow2_pos (e : Z) : (0 < 2 ^ e)%Q.
Proof. by apply Qpower_0_lt. Qed.

Lemma pow2_le (a b : Z) : a <= b -> (2 ^ a <= 2 ^ b)%Q.
Proof. intros Hab. by apply Qpower_le_compat_l. Qed.

Lemma pow2_lt (a b : Z) : a < b -> (2 ^ a < 2 ^ b)%Q.
Proof. intros Hab. by apply Qpower_lt_compat_l. Qed.

Lemma pow2_add (a b : Z) : (2 ^ (a + b) == 2 ^ a * 2 ^ b)%Q.
Proof. by apply Qpower_plus. Qed.

Lemma nearest_even_floor (x : Q) :
  Qfloor x <= nearest_even x <= Qfloor x + 1.
Proof.
  unfold nearest_even. destruct (_ ?= _)%Q; [destruct (Z.even _)| |]; lia.
Qed.

Lemma nearest_even_ge (x : Q) (k : Z) : (inject_Z k <= x)%Q -> k <= nearest_even x.
Proof.
  intros Hk. apply Qfloor_resp_le in Hk. rewrite Qfloor_Z in Hk.
  pose proof (nearest_even_floor x). lia.
Qed.

Lemma nearest_even_le (x : Q) (k : Z) : (x <= inject_Z k)%Q -> nearest_even x <= k.
Proof.
  intros Hk. pose proof (Qfloor_resp_le _ _ Hk) as Hf. rewrite Qfloor_Z in Hf.
  destruct (Z.eq_dec (Qfloor x) k) as [Heq|Hne].
  - unfold nearest_even. pose proof (Qfloor_le x) as Hle. rewrite Heq in *.
    destruct (Qcompare_spec (x - inject_Z k) (1 # 2)) as [E|E|E]; try lia; lra.
  - pose proof (nearest_even_floor x). lia.
Qed.

Lemma nearest_even_mono (x y : Q) : (x <= y)%Q -> nearest_even x <= nearest_even y.
Proof.
  intros Hxy. pose proof (Qfloor_resp_le _ _ Hxy) as Hf.
  destruct (Z.eq_dec (Qfloor x) (Qfloor y)) as [Heq|Hne].
  - unfold nearest_even. rewrite <- Heq.
    destruct (Qcompare_spec (x - inject_Z (Qfloor x)) (1 # 2)) as [Ex|Ex|Ex];
      destruct (Qcompare_spec (y - inject_Z (Qfloor x)) (1 # 2)) as [Ey|Ey|Ey];
      try destruct (Z.even _); try lia; lra.
  - pose proof (nearest_even_floor x). pose proof (nearest_even_floor y). lia.
Qed.

Lemma pow2_ratio (a b : Z) : 0 <= a -> 0 <= b ->
  (2 ^ (a - b) == inject_Z (2 ^ a) / inject_Z (2 ^ b))%Q.
Proof.
  intros Ha Hb. rewrite Qpower_minus by done.
  by rewrite !Zpower_Qpower.
Qed.

Lemma Qlt_ratio (n : Z) (d : positive) (A B : Z) :
  0 < B -> n * B < A * Zpos d -> (n # d < inject_Z A / inject_Z B)%Q.
Proof.
  intros HB Hlt. apply Qlt_shift_div_l.
  - change 0%Q with (inject_Z 0). by rewrite <- Zlt_Qlt.
  - unfold Qlt, Qmult, inject_Z. simpl. rewrite Pos.mul_1_r. lia.
Qed.

Lemma Qgt_ratio (n : Z) (d : positive) (A B : Z) :
  0 < B -> A * Zpos d < n * B -> (inject_Z A / inject_Z B < n # d)%Q.
Proof.
  intros HB Hlt. apply Qlt_shift_div_r.
  - change 0%Q with (inject_Z 0). by rewrite <- Zlt_Qlt.
  - unfold Qlt, Qmult, inject_Z. simpl. rewrite Pos.mul_1_r. lia.
Qed.

Lemma Qlog2_spec (q : Q) : (0 < q)%Q ->
  (2 ^ Qlog2 q <= q)%Q /\ (q < 2 ^ (Qlog2 q + 1))%Q.
Proof.
  intros Hq. destruct q as [n d].
  assert (Hn : 0 < n) by (unfold Qlt in Hq; simpl in Hq; lia).
  unfold Qlog2. simpl Qnum. simpl Qden.
  set (a := Z.log2 n). set (b := Z.log2 (Z.pos d)).
  assert (Ha0 : 0 <= a) by apply Z.log2_nonneg.
  assert (Hb0 : 0 <= b) by apply Z.log2_nonneg.
  destruct (Z.log2_spec n Hn) as [Ha1 Ha2]. fold a in Ha1, Ha2.
  destruct (Z.log2_spec (Z.pos d) eq_refl) as [Hb1 Hb2]. fold b in Hb1, Hb2.
  rewrite Z.pow_succ_r in Ha2, Hb2 by done.
  assert (Hpa : 0 < 2 ^ a) by (apply Z.pow_pos_nonneg; lia).
  assert (Hpb : 0 < 2 ^ b) by (apply Z.pow_pos_nonneg; lia).
  assert (Hup : (n # d < 2 ^ (a - b + 1))%Q).
  { replace (a - b + 1) with ((a + 1) - b) by lia.
    rewrite pow2_ratio by lia. apply Qlt_ratio; [done|].
    rewrite Z.pow_add_r by lia. change (2 ^ 1) with 2. nia. }
  assert (Hlow : (2 ^ (a - b - 1) < n # d)%Q).
  { replace (a - b - 1) with (a - (b + 1)) by lia.
    rewrite pow2_ratio by lia. apply Qgt_ratio.
    - apply Z.pow_pos_nonneg; lia.
    - rewrite Z.pow_add_r by lia. change (2 ^ 1) with 2. nia. }
  destruct (Qle_bool (2 ^ (a - b)) (n # d)) eqn:E.
  - apply Qle_bool_iff in E. split; done.
  - split; [by apply Qlt_le_weak|].
    replace (a - b - 1 + 1) with (a - b) by lia.
    apply Qnot_le_lt. intros C. apply Qle_bool_iff in C. congruence.
Qed.

Lemma Qlog2_mono (a b : Q) : (0 < a)%Q -> (a <= b)%Q -> Qlog2 a <= Qlog2 b.
Proof.
  intros Ha Hab.
  destruct (Qlog2_spec a Ha) as [Ha1 _].
  destruct (Qlog2_spec b) as [_ Hb2]; [lra|].
  destruct (Z.le_gt_cases (Qlog2 a) (Qlog2 b)) as [H|H]; [done|].
  assert (2 ^ (Qlog2 b + 1) <= 2 ^ Qlog2 a)%Q by (apply pow2_le; lia).
  lra.
Qed.

Lemma pow2_Z (k : Z) : 0 <= k -> (2 ^ k == inject_Z (2 ^ k))%Q.
Proof. intros Hk. by rewrite Zpower_Qpower. Qed.

Lemma ulp_exponent_mono (a b : Q) :
  (0 < a)%Q -> (a <= b)%Q -> ulp_exponent a <= ulp_exponent b.
Proof.
  intros Ha Hab. unfold ulp_exponent.
  pose proof (Qlog2_mono a b Ha Hab). lia.
Qed.

Lemma scaled_le (x : Q) (e k : Z) :
  (x <= 2 ^ (e + k))%Q -> 0 <= k -> (x / 2 ^ e <= inject_Z (2 ^ k))%Q.
Proof.
  intros Hx Hk. apply Qle_shift_div_r; [apply pow2_pos|].
  rewrite <- (pow2_Z k) by done. rewrite <- pow2_add.
  by replace (k + e) with (e + k) by lia.
Qed.

Lemma scaled_ge (x : Q) (e k : Z) :
  (2 ^ (e + k) <= x)%Q -> 0 <= k -> (inject_Z (2 ^ k) <= x / 2 ^ e)%Q.
Proof.
  intros Hx Hk. apply Qle_shift_div_l; [apply pow2_pos|].
  rewrite <- (pow2_Z k) by done. rewrite <- pow2_add.
  by replace (k + e) with (e + k) by lia.
Qed.

Lemma nearest_double_upper (a : Q) :
  (0 < a)%Q -> (nearest_double a <= 2 ^ (ulp_exponent a + 53))%Q.
Proof.
  intros Ha. unfold nearest_double.
  set (e := ulp_exponent a).
  assert (Hlt : (a <= 2 ^ (e + 53))%Q).
  { destruct (Qlog2_spec a Ha) as [_ Hup].
    assert (2 ^ (Qlog2 a + 1) <= 2 ^ (e + 53))%Q
      by (apply pow2_le; unfold e, ulp_exponent; lia).
    lra. }
  pose proof (nearest_even_le _ _ (scaled_le _ _ _ Hlt ltac:(lia))) as Hn.
  rewrite pow2_add.
  rewrite (Qmult_comm (2 ^ e)). apply Qmult_le_compat_r.
  - rewrite (pow2_Z 53) by lia. by rewrite <- Zle_Qle.
  - apply Qlt_le_weak, pow2_pos.
Qed.

Lemma nearest_double_lower (b : Q) :
  (0 < b)%Q -> -1074 < ulp_exponent b ->
  (2 ^ (ulp_exponent b + 52) <= nearest_double b)%Q.
Proof.
  intros Hb Hnormal. unfold nearest_double.
  set (e := ulp_exponent b) in *.
  assert (He : e = Qlog2 b - 52) by (unfold e, ulp_exponent in *; lia).
  assert (Hge : (2 ^ (e + 52) <= b)%Q).
  { destruct (Qlog2_spec b Hb) as [Hlow _].
    by replace (e + 52) with (Qlog2 b) by lia. }
  pose proof (nearest_even_ge _ _ (scaled_ge _ _ _ Hge ltac:(lia))) as Hn.
  rewrite pow2_add.
  rewrite (Qmult_comm (2 ^ e)). apply Qmult_le_compat_r.
  - rewrite (pow2_Z 52) by lia. by rewrite <- Zle_Qle.
  - apply Qlt_le_weak, pow2_pos.
Qed.

Lemma nearest_double_nonneg (a : Q) : (0 < a)%Q -> (0 <= nearest_double a)%Q.
Proof.
  intros Ha. unfold nearest_double.
  apply Qmult_le_0_compat; [|apply Qlt_le_weak, pow2_pos].
  change 0%Q with (inject_Z 0). rewrite <- Zle_Qle.
  apply nearest_even_ge. change (inject_Z 0) with 0%Q.
  apply Qle_shift_div_l; [apply pow2_pos|]. lra.
Qed.

Lemma nearest_double_mono (a b : Q) :
  (0 < a)%Q -> (a <= b)%Q -> (nearest_double a <= nearest_double b)%Q.
Proof.
  intros Ha Hab. assert (Hb : (0 < b)%Q) by lra.
  pose proof (ulp_exponent_mono a b Ha Hab) as He.
  destruct (Z.eq_dec (ulp_exponent a) (ulp_exponent b)) as [Heq|Hne].
  - unfold nearest_double. rewrite Heq.
    apply Qmult_le_compat_r; [|apply Qlt_le_weak, pow2_pos].
    rewrite <- Zle_Qle. apply nearest_even_mono.
    apply Qmult_le_compat_r; [done|].
    apply Qlt_le_weak, Qinv_lt_0_compat, pow2_pos.
  - pose proof (nearest_double_upper a Ha) as Hup.
    assert (Hnormal : -1074 < ulp_exponent b).
    { unfold ulp_exponent in *. lia. }
    pose proof (nearest_double_lower b Hb Hnormal) as Hlow.
    assert (2 ^ (ulp_exponent a + 53) <= 2 ^ (ulp_exponent b + 52))%Q
      by (apply pow2_le; lia).
    lra.
Qed.

Lemma round_canonical_mono (x y : Q) :
  (x <= y)%Q -> le (round_canonical x) (round_canonical y) = true.
Proof.
  intros Hxy. unfold round_canonical.
  destruct (Qcompare_spec x 0) as [Ex|Ex|Ex];
    destruct (Qcompare_spec y 0) as [Ey|Ey|Ey]; try lra.
  - done.
  - pose proof (nearest_double_nonneg y Ey).
    destruct (Qle_bool _ (nearest_double y)); [done|].
    simpl. apply Qle_bool_iff. rewrite Qred_correct. done.
  - assert (Hx' : (0 < - x)%Q) by lra.
    pose proof (nearest_double_nonneg _ Hx').
    destruct (Qle_bool _ (nearest_double (- x))); [done|].
    simpl. apply Qle_bool_iff. rewrite Qred_correct. lra.
  - assert (Hx' : (0 < - x)%Q) by lra. assert (Hy' : (0 < - y)%Q) by lra.
    pose proof (nearest_double_mono (- y) (- x) Hy' ltac:(lra)) as Hm.
    destruct (Qle_bool _ (nearest_double (- x))) eqn:Bx;
      [destruct (Qle_bool _ (nearest_double (- y))); reflexivity|].
    destruct (Qle_bool _ (nearest_double (- y))) eqn:By.
    + apply Qle_bool_iff in By.
      assert (~ (2 ^ 1024 <= nearest_double (- x))%Q)
        by (intros C; apply Qle_bool_iff in C; congruence).
      lra.
    + simpl. apply Qle_bool_iff. rewrite !Qred_correct. lra.
  - assert (Hx' : (0 < - x)%Q) by lra.
    pose proof (nearest_double_nonneg _ Hx'). pose proof (nearest_double_nonneg y Ey).
    destruct (Qle_bool _ (nearest_double (- x)));
      [destruct (Qle_bool _ (nearest_double y)); reflexivity|].
    destruct (Qle_bool _ (nearest_double y)); [done|].
    simpl. apply Qle_bool_iff. rewrite !Qred_correct. lra.
  - pose proof (nearest_double_mono x y Ex Hxy) as Hm.
    destruct (Qle_bool _ (nearest_double y)) eqn:By;
      [destruct (Qle_bool _ (nearest_double x)); reflexivity|].
    destruct (Qle_bool _ (nearest_double x)) eqn:Bx.
    + apply Qle_bool_iff in Bx.
      assert (~ (2 ^ 1024 <= nearest_double y)%Q)
        by (intros C; apply Qle_bool_iff in C; congruence).
      lra.
    + simpl. apply Qle_bool_iff. rewrite !Qred_correct. done.
Qed.

Lemma round_mono (x y : Q) : (x <= y)%Q -> le (round x) (round y) = true.
Proof.
  intros Hxy. apply round_canonical_mono. by rewrite !Qred_correct.
Qed.

Lemma round_proper (x y : Q) : (x == y)%Q -> round x = round y.
Proof. intros Hxy. unfold round. by rewrite (Qred_complete _ _ Hxy). Qed.

Lemma round_not_NaN (x : Q) : round x <> NaN.
Proof.
  unfold round, round_canonical.
  destruct (_ ?= _)%Q; [done| |]; by destruct (Qle_bool _ _).
Qed.

(** *** Integers and rounding *)

Lemma nearest_even_proper (x y : Q) : (x == y)%Q -> nearest_even x = nearest_even y.
Proof.
  intros Hxy. unfold nearest_even.
  rewrite (Qfloor_comp _ _ Hxy).
  assert (Hdiff : (x - inject_Z (Qfloor y) == y - inject_Z (Qfloor y))%Q)
    by (rewrite Hxy; reflexivity).
  by rewrite (Qcompare_comp _ _ Hdiff (1 # 2)%Q (1 # 2)%Q ltac:(reflexivity)).
Qed.

Lemma nearest_even_integer (m : Z) : nearest_even (inject_Z m) = m.
Proof.
  unfold nearest_even. rewrite Qfloor_Z.
  destruct (Qcompare_spec (inject_Z m - inject_Z m) (1 # 2)) as [E|E|E];
    [lra | reflexivity | lra].
Qed.

Lemma Qlog2_le (q : Q) (k : Z) : (0 < q)%Q -> (q < 2 ^ (k + 1))%Q -> Qlog2 q <= k.
Proof.
  intros Hq Hlt. destruct (Qlog2_spec q Hq) as [Hlow _].
  destruct (Z.le_gt_cases (Qlog2 q) k) as [H|H]; [done|].
  assert (2 ^ (k + 1) <= 2 ^ Qlog2 q)%Q by (apply pow2_le; lia). lra.
Qed.

(** An integer of magnitude at most 2^53 is a binary64 value. *)
Lemma nearest_double_integer (z : Z) :
  0 < z <= 2 ^ 53 -> (nearest_double (inject_Z z) == inject_Z z)%Q.
Proof.
  intros [Hpos Hle].
  destruct (Z.eq_dec z (2 ^ 53)) as [->|Hne]; [by vm_compute|].
  assert (Hq : (0 < inject_Z z)%Q)
    by (change 0%Q with (inject_Z 0); by rewrite <- Zlt_Qlt).
  assert (Hlog : Qlog2 (inject_Z z) <= 52).
  { apply Qlog2_le; [done|]. rewrite (pow2_Z (52 + 1)) by lia.
    rewrite <- Zlt_Qlt. change (52 + 1) with 53. lia. }
  unfold nearest_double. set (e := ulp_exponent (inject_Z z)).
  assert (He : -1074 <= e <= 0) by (unfold e, ulp_exponent; lia).
  assert (Hscaled : (inject_Z z / 2 ^ e == inject_Z (z * 2 ^ (- e)))%Q).
  { rewrite inject_Z_mult, <- (pow2_Z (- e)) by lia.
    rewrite Qpower_opp. reflexivity. }
  rewrite (nearest_even_proper _ _ Hscaled), nearest_even_integer.
  rewrite inject_Z_mult, <- (pow2_Z (- e)) by lia.
  rewrite <- Qmult_assoc, <- pow2_add.
  replace (- e + e) with 0 by lia. change (2 ^ 0)%Q with 1%Q. lra.
Qed.

Lemma round_integer (z : Z) : Z.abs z <= 2 ^ 53 -> round (inject_Z z) = ofZ z.
Proof.
  intros Hz. unfold round. rewrite inject_Z_Qred. unfold round_canonical.
  assert (Hbig : forall r : Q,
             (r <= inject_Z (2 ^ 53))%Q -> Qle_bool (2 ^ 1024) r = false).
  { intros r Hr. destruct (Qle_bool (2 ^ 1024) r) eqn:E; [|done].
    apply Qle_bool_iff in E.
    assert (2 ^ 53 < 2 ^ 1024)%Q by (apply pow2_lt; lia).
    rewrite <- (pow2_Z 53) in Hr by lia. lra. }
  destruct (Qcompare_spec (inject_Z z) 0) as [E|E|E].
  - change 0%Q with (inject_Z 0) in E.
    apply (proj1 (inject_Z_injective z 0)) in E. by subst z.
  - change 0%Q with (inject_Z 0) in E. rewrite <- Zlt_Qlt in E.
    change (- inject_Z z)%Q with (inject_Z (- z)).
    pose proof (nearest_double_integer (- z) ltac:(lia)) as Hexact.
    rewrite Hbig by (rewrite Hexact, <- Zle_Qle; lia).
    unfold ofZ. f_equal.
    etrans; [apply (Qred_complete _ (inject_Z z)) | apply inject_Z_Qred].
    rewrite Hexact, inject_Z_opp. lra.
  - change 0%Q with (inject_Z 0) in E. rewrite <- Zlt_Qlt in E.
    pose proof (nearest_double_integer z ltac:(lia)) as Hexact.
    rewrite Hbig by (rewrite Hexact, <- Zle_Qle; lia).
    unfold ofZ. f_equal.
    etrans; [apply Qred_complete, Hexact | apply inject_Z_Qred].
Qed.

(** Past 2^53 every binary64 value is a whole number, so an integer rounds
    to an integer. *)
Lemma nearest_double_whole (z : Z) :
  0 < z -> exists m : Z, (nearest_double (inject_Z z) == inject_Z m)%Q.
Proof.
  intros Hpos.
  destruct (Z.le_gt_cases z (2 ^ 53)) as [Hle|Hgt].
  { exists z. apply nearest_double_integer. lia. }
  assert (Hq : (0 < inject_Z z)%Q)
    by (change 0%Q with (inject_Z 0); by rewrite <- Zlt_Qlt).
  destruct (Qlog2_spec _ Hq) as [_ Hup].
  assert (Hlog : 53 <= Qlog2 (inject_Z z)).
  { destruct (Z.le_gt_cases 53 (Qlog2 (inject_Z z))) as [H|H]; [done|].
    assert (Hpow : (2 ^ (Qlog2 (inject_Z z) + 1) <= 2 ^ 53)%Q)
      by (apply pow2_le; lia).
    rewrite (pow2_Z 53) in Hpow by lia.
    assert (Hlt : (inject_Z z < inject_Z (2 ^ 53))%Q) by lra.
    rewrite <- Zlt_Qlt in Hlt. lia. }
  unfold nearest_double. set (e := ulp_exponent (inject_Z z)).
  assert (He : 1 <= e) by (unfold e, ulp_exponent; lia).
  exists (nearest_even (inject_Z z / 2 ^ e) * 2 ^ e).
  rewrite inject_Z_mult, <- (pow2_Z e) by lia. reflexivity.
Qed.

Lemma round_whole (z : Z) :
  round (inject_Z z) = PosInfinity \/ round (inject_Z z) = NegInfinity \/
  exists m : Z, round (inject_Z z) = ofZ m.
Proof.
  unfold round. rewrite inject_Z_Qred. unfold round_canonical.
  destruct (Qcompare_spec (inject_Z z) 0) as [E|E|E].
  - right; right. by exists 0.
  - change 0%Q with (inject_Z 0) in E. rewrite <- Zlt_Qlt in E.
    change (- inject_Z z)%Q with (inject_Z (- z)).
    destruct (nearest_double_whole (- z) ltac:(lia)) as [m Hm].
    destruct (Qle_bool _ (nearest_double _)); [by right; left|].
    right; right. exists (- m). unfold ofZ. f_equal.
    etrans; [apply (Qred_complete _ (inject_Z (- m))) | apply inject_Z_Qred].
    rewrite Hm, inject_Z_opp. reflexivity.
  - change 0%Q with (inject_Z 0) in E. rewrite <- Zlt_Qlt in E.
    destruct (nearest_double_whole z ltac:(lia)) as [m Hm].
    destruct (Qle_bool _ (nearest_double _)); [by left|].
    right; right. exists m. unfold ofZ. f_equal.
    etrans; [apply Qred_complete, Hm | apply inject_Z_Qred].
Qed.

Lemma add_ofZ (a b : Z) : add (ofZ a) (ofZ b) = round (inject_Z (a + b)).
Proof.
  change (round (inject_Z a + inject_Z b) = round (inject_Z (a + b))).
  apply round_proper. by rewrite inject_Z_plus.
Qed.

(** *** The operations of the player never make a NaN of a number *)
Lemma mul_30_not_NaN (x : number) : x <> NaN -> mul x (ofZ 30) <> NaN.
Proof. destruct x as [| |q|]; try done. intros _. apply round_not_NaN. Qed.

Lemma Math_ceil_not_NaN (x : number) : x <> NaN -> Math_ceil x <> NaN.
Proof. by destruct x. Qed.

Lemma Math_max_not_NaN (x y : number) :
  x <> NaN -> y <> NaN -> Math_max x y <> NaN.
Proof.
  destruct x as [| |a|], y as [| |b|]; simpl; try done.
  by destruct (Qle_bool a b).
Qed.

Lemma add_30_not_NaN (x : number) : x <> NaN -> add x (ofZ 30) <> NaN.
Proof. destruct x as [| |q|]; try done. intros _. apply round_not_NaN. Qed.

(** *** The operations of the player keep the order *)
Lemma Math_ceil_mono (x y : number) :
  le x y = true -> le (Math_ceil x) (Math_ceil y) = true.
Proof.
  destruct x as [| |a|], y as [| |b|]; simpl; try done.
  rewrite !Qle_bool_iff. intros Hab.
  rewrite <- Zle_Qle. by apply Qceiling_resp_le.
Qed.

(** Scaling by the frame rate keeps the order. *)
Lemma mul_30_mono (x y : number) :
  le x y = true -> le (mul x (ofZ 30)) (mul y (ofZ 30)) = true.
Proof.
  destruct x as [| |a|], y as [| |b|]; simpl; try done.
  - intros _. by destruct (round (b * _)) eqn:E; [destruct (round_not_NaN _ E)| | |].
  - rewrite Qle_bool_iff. intros Hab. apply round_mono.
    apply Qmult_le_compat_r; [done | discriminate].
  - intros _. by destruct (round (a * _)) eqn:E; [destruct (round_not_NaN _ E)| | |].
Qed.

Lemma Math_max_mono (x x' y y' : number) :
  le x x' = true -> le y y' = true ->
  le (Math_max x y) (Math_max x' y') = true.
Proof.
  destruct x as [| |a|], x' as [| |a'|], y as [| |b|], y' as [| |b'|];
    simpl; try done;
    repeat match goal with
           | |- context [Qle_bool ?p ?q] =>
               let E := fresh "E" in destruct (Qle_bool p q) eqn:E
           end;
    simpl; rewrite ?Qle_bool_iff; try done;
    repeat match goal with
           | E : Qle_bool _ _ = true |- _ => apply Qle_bool_iff in E
           | E : Qle_bool ?p ?q = false |- _ =>
               assert (q < p)%Q
                 by (apply Qnot_le_lt; intros C; apply Qle_bool_iff in C; congruence);
               clear E
           end;
    intros; lra.
Qed.

Lemma add_30_mono (x y : number) :
  le x y = true -> le (add x (ofZ 30)) (add y (ofZ 30)) = true.
Proof.
  destruct x as [| |a|], y as [| |b|]; simpl; try done.
  - intros _. by destruct (round (b + _)) eqn:E; [destruct (round_not_NaN _ E)| | |].
  - rewrite Qle_bool_iff. intros Hab. apply round_mono. lra.
  - intros _. by destruct (round (a + _)) eqn:E; [destruct (round_not_NaN _ E)| | |].
Qed.

(** On integers [Math.max] and [+] are [Z.max] and [Z.add]. *)
Lemma Math_max_ofZ (a b : Z) : Math_max (ofZ a) (ofZ b) = ofZ (Z.max a b).
Proof.
  unfold ofZ; simpl.
  destruct (Qle_bool (inject_Z a) (inject_Z b)) eqn:E.
  - apply Qle_bool_iff in E. rewrite <- Zle_Qle in E. by rewrite Z.max_r.
  - destruct (Z.le_gt_cases a b) as [Hle|Hgt].
    + rewrite Zle_Qle in Hle. apply Qle_bool_iff in Hle. congruence.
    + rewrite Z.max_l; [done | lia].
Qed.


End JSFacts.

(** ** The timing deriver *)
Module TimingFacts.
Import JS Timing JSFacts.

(** The index the memo reads is the last element. *)
Lemma lastLine_lookup (lyricsData : list DerivedLyricLine) :
  lyricsData !! (length lyricsData - 1)%nat = last lyricsData.
Proof. rewrite last_lookup. f_equal. lia. Qed.

(** Past the length test the read of the last line cannot fail. *)
Lemma lastLine_in_range (lyricsData : list DerivedLyricLine) :
  length lyricsData <> 0%nat ->
  is_Some (lyricsData !! (length lyricsData - 1)%nat).
Proof. intros Hlen. apply lookup_lt_is_Some. lia. Qed.

Lemma last_Some_length {A} (l : list A) (x : A) :
  last l = Some x -> (length l =? 0)%nat = false.
Proof. destruct l; [done | intros _; reflexivity]. Qed.

(** [audioRef.current?.duration || 0] is never NaN. *)
Lemma or_else_not_NaN (current : option HTMLAudioElement) :
  or_else (current_duration current) (ofZ 0) <> NaN.
Proof.
  destruct current as [[d]|]; simpl; [|done].
  destruct d as [| |q|]; simpl; try done.
  by destruct (Qsgn q =? 0).
Qed.

(** The [||] of the code and the wording "0 when unknown" give the same
    number of audio frames: they differ only on a zero duration. *)
Lemma audioFrames_spec (current : option HTMLAudioElement) :
  Math_ceil (mul (or_else (current_duration current) (ofZ 0)) (ofZ 30)) =
  Math_ceil (mul (audioDurationSeconds current) (ofZ 30)).
Proof.
  destruct current as [[d]|]; [|reflexivity].
  destruct d as [| |q|]; try reflexivity.
  change (Math_ceil (mul (if negb (Qsgn q =? 0) then Finite q else ofZ 0) (ofZ 30))
          = Math_ceil (mul (Finite q) (ofZ 30))).
  destruct (Qsgn q =? 0) eqn:E; [|reflexivity].
  apply Z.eqb_eq, Qsgn_zero in E.
  change (Math_ceil (round (0 * 30)) = Math_ceil (round (q * 30))).
  f_equal. apply round_proper. by rewrite E.
Qed.

(** The unfolding of [totalFrames] on a non-empty sequence. *)
Lemma totalFrames_unfold (current : option HTMLAudioElement)
    (lyricsData : list DerivedLyricLine) (lastLine : DerivedLyricLine) :
  last lyricsData = Some lastLine ->
  totalFrames current lyricsData =
    add (Math_max
           (Math_ceil (mul (or_else (current_duration current) (ofZ 0)) (ofZ 30)))
           (ofZ (endFrame lastLine)))
        (ofZ 30).
Proof.
  intros Hlast. unfold totalFrames.
  rewrite (last_Some_length _ _ Hlast), lastLine_lookup, Hlast. reflexivity.
Qed.

(** The audio frames are an integer or an infinity, never NaN. *)
Lemma audioDurationSeconds_not_NaN (current : option HTMLAudioElement) :
  audioDurationSeconds current <> NaN.
Proof. destruct current as [[d]|]; simpl; [by destruct d | done]. Qed.

Lemma audioFrames_not_NaN (current : option HTMLAudioElement) :
  Math_ceil (mul (audioDurationSeconds current) (ofZ 30)) <> NaN.
Proof.
  apply Math_ceil_not_NaN, mul_30_not_NaN, audioDurationSeconds_not_NaN.
Qed.

Lemma totalFrames_not_NaN (current : option HTMLAudioElement)
    (lyricsData : list DerivedLyricLine) (lastLine : DerivedLyricLine) :
  last lyricsData = Some lastLine -> totalFrames current lyricsData <> NaN.
Proof.
  intros Hlast. rewrite (totalFrames_unfold _ _ _ Hlast), audioFrames_spec.
  apply add_30_not_NaN, Math_max_not_NaN; [apply audioFrames_not_NaN | done].
Qed.

(** Both arguments of [totalFrames] act monotonically. *)
Lemma totalFrames_le_compat (current1 current2 : option HTMLAudioElement)
    (lyrics1 lyrics2 : list DerivedLyricLine) (last1 last2 : DerivedLyricLine) :
  last lyrics1 = Some last1 -> last lyrics2 = Some last2 ->
  le (audioDurationSeconds current1) (audioDurationSeconds current2) = true ->
  endFrame last1 <= endFrame last2 ->
  le (totalFrames current1 lyrics1) (totalFrames current2 lyrics2) = true.
Proof.
  intros H1 H2 Hd He.
  rewrite (totalFrames_unfold _ _ _ H1), (totalFrames_unfold _ _ _ H2).
  rewrite !audioFrames_spec.
  apply add_30_mono, Math_max_mono.
  - by apply Math_ceil_mono, mul_30_mono.
  - by apply le_ofZ.
Qed.

Lemma audioDurationSeconds_le_refl (current : option HTMLAudioElement) :
  le (audioDurationSeconds current) (audioDurationSeconds current) = true.
Proof.
  apply le_refl. destruct current as [[d]|]; simpl; [|done]. by destruct d.
Qed.

(** C1, as stated, fails when its formula is read over the reals: for the
    binary64 value nearest 1.1 the exact product with 30 lies just above 33
    and its ceiling is 34, but the product the code computes rounds to 33,
    so [totalFrames] is 63 where the formula gives 64. *)
Lemma exact_formula_counterexample :
  let seconds : Q := 2476979795053773 # 2251799813685248 in
  let line := {| text := "a"; startFrame := 0; endFrame := 30 |} in
  round seconds = Finite seconds /\
  totalFrames (Some {| duration := Finite seconds |}) [line] = ofZ 63 /\
  Z.max (Qceiling (seconds * 30)) (endFrame line) + 30 = 64.
Proof. vm_compute. repeat split. Qed.

(** C1, amended. On a non-empty derived sequence [totalFrames] is
    max(ceil(audioDurationSeconds * 30), endFrame of the last line) + 30
    computed in binary64 arithmetic, the product and the sum each rounded to
    the nearest value, where audioDurationSeconds is 0 when the duration is
    unknown (no audio element, or a NaN duration). *)
Theorem totalFrames_nonempty (current : option HTMLAudioElement)
    (lyricsData : list DerivedLyricLine) (lastLine : DerivedLyricLine) :
  last lyricsData = Some lastLine ->
  totalFrames current lyricsData =
    add (Math_max (Math_ceil (mul (audioDurationSeconds current) (ofZ 30)))
                  (ofZ (endFrame lastLine)))
        (ofZ 30).
Proof.
  intros Hlast. rewrite (totalFrames_unfold _ _ _ Hlast).
  by rewrite audioFrames_spec.
Qed.

Lemma totalFrames_nonempty_witness :
  let lyricsData := [ {| text := "a"; startFrame := 0; endFrame := 60 |};
                      {| text := "b"; startFrame := 60; endFrame := 150 |} ] in
  let lastLine := {| text := "b"; startFrame := 60; endFrame := 150 |} in
  last lyricsData = Some lastLine /\
  totalFrames (Some {| duration := Finite (11 # 2) |}) lyricsData = ofZ 195 /\
  totalFrames (Some {| duration := NaN |}) lyricsData = ofZ 180 /\
  totalFrames None lyricsData = ofZ 180.
Proof.
  intros lyricsData lastLine.
  split; [reflexivity|].
  split; [|split];
    rewrite (totalFrames_nonempty _ lyricsData lastLine);
    first [reflexivity | vm_compute; reflexivity].
Defined.

(** The scenario of the specification: lines at 0s and 2s, a default of 90
    frames and 5 seconds of audio give max(150, 150) + 30 frames. *)
Example totalFrames_scenario :
  totalFrames (Some {| duration := Finite 5 |})
    (parseLines 90 toFrame
       [ {| line_text := "a"; startTimeSeconds := 0; explicitEnd := None |};
         {| line_text := "b"; startTimeSeconds := 2; explicitEnd := None |} ])
  = ofZ 180.
Proof. vm_compute. reflexivity. Qed.

(** C7. For a non-empty derived sequence [totalFrames] does not decrease
    when the audio duration grows and the sequence is fixed, nor when the end
    frame of the last line grows and the audio is fixed. *)
Theorem totalFrames_monotone :
  (forall (current1 current2 : option HTMLAudioElement)
          (lyricsData : list DerivedLyricLine),
     lyricsData <> [] ->
     le (audioDurationSeconds current1) (audioDurationSeconds current2) = true ->
     le (totalFrames current1 lyricsData) (totalFrames current2 lyricsData) = true)
  /\
  (forall (current : option HTMLAudioElement)
          (lyrics1 lyrics2 : list DerivedLyricLine)
          (last1 last2 : DerivedLyricLine),
     last lyrics1 = Some last1 -> last lyrics2 = Some last2 ->
     endFrame last1 <= endFrame last2 ->
     le (totalFrames current lyrics1) (totalFrames current lyrics2) = true).
Proof.
  split.
  - intros current1 current2 lyricsData Hne Hd.
    destruct (last lyricsData) as [lastLine|] eqn:Hlast.
    + by apply (totalFrames_le_compat _ _ _ _ lastLine lastLine).
    + by apply last_None in Hlast.
  - intros current lyrics1 lyrics2 last1 last2 H1 H2 He.
    apply (totalFrames_le_compat _ _ _ _ last1 last2); try done.
    apply audioDurationSeconds_le_refl.
Qed.

Lemma totalFrames_monotone_witness :
  let a := {| text := "a"; startFrame := 0; endFrame := 60 |} in
  let b := {| text := "b"; startFrame := 60; endFrame := 150 |} in
  let b' := {| text := "b"; startFrame := 60; endFrame := 400 |} in
  le (totalFrames (Some {| duration := Finite 2 |}) [a; b])
     (totalFrames (Some {| duration := Finite 9 |}) [a; b]) = true /\
  le (totalFrames (Some {| duration := Finite 9 |}) [a; b])
     (totalFrames (Some {| duration := Finite 9 |}) [a; b']) = true.
Proof.
  intros a b b'. split.
  - apply (proj1 totalFrames_monotone); [discriminate | reflexivity].
  - apply (proj2 totalFrames_monotone _ _ _ b b');
      [reflexivity | reflexivity | simpl; lia].
Defined.

Section DeriverFacts.
Variable defaultDuration : Z.
Variable explicitEndFrame : Q -> Z.

Local Abbreviation derive := (parseLines defaultDuration explicitEndFrame).


(** The derived line at an index, from the line there and the one after. *)
Lemma parseLines_lookup (lyricLines : list LyricLine) (i : nat) (line : LyricLine) :
  lyricLines !! i = Some line ->
  derive lyricLines !! i =
    Some {| text := line_text line;
            startFrame := toFrame (startTimeSeconds line);
            endFrame := match lyricLines !! S i with
                        | Some next => toFrame (startTimeSeconds next)
                        | None => closingFrame defaultDuration explicitEndFrame line
                        end |}.
Proof.
  revert i. induction lyricLines as [|first rest IH]; intros i Hi; [done|].
  destruct i as [|i]; simpl in *.
  - injection Hi as ->. by destruct rest.
  - by apply IH.
Qed.



End DeriverFacts.

(** C8. For the empty lyric sequence the derived sequence is empty and
    [totalFrames] is 0, whatever the audio element is. *)
Theorem empty_sequence (defaultDuration : Z) (explicitEndFrame : Q -> Z)
    (current : option HTMLAudioElement) :
  parseLines defaultDuration explicitEndFrame [] = [] /\
  totalFrames current (parseLines defaultDuration explicitEndFrame []) = ofZ 0.
Proof. split; reflexivity. Qed.

(** C6. The derivation gives the line at each index the start frame
    round(startTimeSeconds * 30); its end frame is the start frame of the
    next line, and for the last line the start frame plus the default
    duration when it has no explicit end. Lines starting at 0s and 2s derive
    to frames 0..60 and 60..60 + default. *)
Theorem parseLines_frames (defaultDuration : Z) (explicitEndFrame : Q -> Z) :
  (forall (lyricLines : list LyricLine) (i : nat) (line : LyricLine),
     lyricLines !! i = Some line ->
     exists d : DerivedLyricLine,
       parseLines defaultDuration explicitEndFrame lyricLines !! i = Some d /\
       text d = line_text line /\
       startFrame d = round_half_up (startTimeSeconds line * 30) /\
       match lyricLines !! S i with
       | Some next => endFrame d = round_half_up (startTimeSeconds next * 30)
       | None => explicitEnd line = None ->
                 endFrame d = startFrame d + defaultDuration
       end)
  /\
  (forall ta tb : string,
     parseLines defaultDuration explicitEndFrame
       [ {| line_text := ta; startTimeSeconds := 0; explicitEnd := None |};
         {| line_text := tb; startTimeSeconds := 2; explicitEnd := None |} ]
     = [ {| text := ta; startFrame := 0; endFrame := 60 |};
         {| text := tb; startFrame := 60; endFrame := 60 + defaultDuration |} ]).
Proof.
  split.
  - intros lyricLines i line Hi.
    eexists. split; [by apply parseLines_lookup|].
    simpl. split; [done|]. split; [done|].
    destruct (lyricLines !! S i) as [next|]; [done|].
    intros Hend. unfold closingFrame. by rewrite Hend.
  - intros ta tb. reflexivity.
Qed.

Lemma parseLines_frames_witness :
  let a := {| line_text := "a"; startTimeSeconds := 0; explicitEnd := None |} in
  let b := {| line_text := "b"; startTimeSeconds := 5 # 2; explicitEnd := None |} in
  exists d : DerivedLyricLine,
    parseLines 90 toFrame [a; b] !! 1%nat = Some d /\
    startFrame d = 75 /\ endFrame d = 165.
Proof.
  intros a b.
  destruct (proj1 (parseLines_frames 90 toFrame) [a; b] 1%nat b eq_refl)
    as (d & Hd & _ & Hstart & Hend).
  exists d. split; [exact Hd|]. split.
  - rewrite Hstart. reflexivity.
  - simpl in Hend. rewrite (Hend eq_refl), Hstart. reflexivity.
Defined.





End TimingFacts.

(** ** The render session *)
Module SessionFacts.
Import JS Timing Session.

Ltac unfold_handlers :=
  unfold onmessage, onerror, handleRenderVideo, renderVideo, bind, try_catch,
    lift, ret, throw, modify, toast_success, toast_error, close,
    setRenderProgress, new_EventSource, mutate, getItem in *.

Ltac destruct_ToString :=
  match goal with
  | |- context [ToString ?x] => destruct (ToString x)
  | |- context [ToString_json ?x] => destruct (ToString_json x)
  end.

Section PlayerFacts.
Context `{Host}.

(** Reading a second property of a value cannot throw once a first read has
    succeeded. *)
Lemma get_total (data : json) (p p' : string) (v : value) :
  get data p = inr v -> exists v', get data p' = inr v'.
Proof. destruct data; simpl; intros Hv; try done; eauto. Qed.

(** *** What each handler does on a terminal event *)
Lemma onmessage_complete (handle : nat) (event_data : string) (data : json) (w : World) :
  JSON_parse event_data = inr data ->
  get data "type" = inr (Some (JString "complete")) ->
  snd (onmessage handle event_data w) =
    {| localStorage := localStorage w;
       toasts := toasts w ++
         [{| kind := Success; title := "Video rendered successfully!";
             description := JString "Your lyric video is ready for download" |}];
       eventSources := alter close_source handle (eventSources w);
       submissions := submissions w;
       renderProgress := JNull |}.
Proof. intros Hparse Htype. unfold_handlers. by rewrite Hparse, Htype. Qed.

Lemma onmessage_error (handle : nat) (event_data : string) (data : json) (w : World) :
  JSON_parse event_data = inr data ->
  get data "type" = inr (Some (JString "error")) ->
  exists msg : value,
    get data "message" = inr msg /\
    snd (onmessage handle event_data w) =
      {| localStorage := localStorage w;
         toasts := toasts w ++
           [{| kind := Failure; title := "Render failed";
               description := or_default msg (JString "Unknown error occurred") |}];
         eventSources := alter close_source handle (eventSources w);
         submissions := submissions w;
         renderProgress := JNull |}.
Proof.
  intros Hparse Htype.
  destruct (get_total data "type" "message" _ Htype) as [msg Hmsg].
  exists msg. split; [done|].
  unfold_handlers. by rewrite Hparse, Htype, Hmsg.
Qed.

Lemma onerror_world (handle : nat) (w : World) :
  snd (onerror handle w) =
    {| localStorage := localStorage w;
       toasts := toasts w ++
         [{| kind := Failure; title := "Connection error";
             description := JString "Lost connection to render server" |}];
       eventSources := alter close_source handle (eventSources w);
       submissions := submissions w;
       renderProgress := JNull |}.
Proof. reflexivity. Qed.

(** *** How one turn changes the list of sources *)
Lemma handleRenderVideo_sources (c : Closure) (w : World) :
  eventSources (snd (handleRenderVideo c w)) = eventSources w \/
  exists fresh : EventSource,
    eventSources (snd (handleRenderVideo c w)) = eventSources w ++ [fresh] /\
    closed fresh = false /\ closeCalls fresh = 0%nat.
Proof.
  unfold_handlers.
  destruct (is_falsy _ || _); simpl; [by left|].
  destruct (localStorage w !! _) as [stored|]; simpl; [|by left].
  destruct (JSON_parse stored) as [e|audioMetadata]; simpl; [by left|].
  destruct (fileName_of audioMetadata) as [e|fileName]; simpl; [by left|].
  right. eexists. split; [reflexivity|]. done.
Qed.

Lemma onmessage_sources (handle : nat) (event_data : string) (w : World) :
  eventSources (snd (onmessage handle event_data w)) = eventSources w \/
  eventSources (snd (onmessage handle event_data w)) =
    alter close_source handle (eventSources w).
Proof.
  unfold_handlers.
  destruct (JSON_parse event_data) as [e|data]; simpl; [by left|].
  destruct (get data "type") as [e|type] eqn:Htype; simpl; [by left|].
  destruct (is_string type "complete"); simpl; [by right|].
  destruct (is_string type "error"); simpl; [|by left].
  destruct (get_total data "type" "message" _ Htype) as [msg ->]. by right.
Qed.

Lemma renderVideo_sources (f : Fetch) (w : World) :
  eventSources (snd (renderVideo f w)) = eventSources w.
Proof.
  unfold_handlers.
  destruct f as [e|[isok [e|payload]]]; simpl; try done;
    destruct isok; simpl; try done.
  - destruct (get payload "fileName") as [e|fileName]; simpl; [done|].
    destruct_ToString; by simpl.
  - destruct (get payload "message") as [e|msg]; simpl; [done|].
    destruct_ToString; by simpl.
Qed.

Lemma step_sources (e : Event) (w : World) :
  eventSources (step e w) = eventSources w \/
  (exists fresh : EventSource,
     eventSources (step e w) = eventSources w ++ [fresh] /\
     closed fresh = false /\ closeCalls fresh = 0%nat) \/
  (exists handle : nat,
     is_open w handle = true /\
     eventSources (step e w) = alter close_source handle (eventSources w)).
Proof.
  destruct e as [storage|c|handle event_data|handle|k f]; simpl.
  - by left.
  - destruct (disabled c w); [by left|].
    destruct (handleRenderVideo_sources c w) as [->|Hfresh]; [by left|].
    right; by left.
  - destruct (is_open w handle) eqn:Hopen; [|by left].
    destruct (onmessage_sources handle event_data w) as [->| ->]; [by left|].
    right; right. by exists handle.
  - destruct (is_open w handle) eqn:Hopen; [|by left].
    right; right. by exists handle.
  - destruct (is_pending w k); [|by left].
    left. by rewrite renderVideo_sources.
Qed.

(** *** [close()] is called at most once on a source *)
Lemma step_consistent (e : Event) (w : World) :
  Forall consistent (eventSources w) ->
  Forall consistent (eventSources (step e w)).
Proof.
  intros Hall.
  destruct (step_sources e w) as [->|[(fresh & -> & Hc & Hn)|(handle & Hopen & ->)]].
  - done.
  - apply Forall_app. split; [done|].
    constructor; [|constructor]. unfold consistent. by rewrite Hc, Hn.
  - apply Forall_alter; [done|].
    intros es Hes _. unfold is_open in Hopen. rewrite Hes in Hopen.
    rewrite Forall_lookup in Hall. specialize (Hall _ _ Hes).
    unfold consistent in *. destruct (closed es); [done|].
    simpl. by rewrite Hall.
Qed.

Lemma run_snoc (events : list Event) (e : Event) (w : World) :
  run (events ++ [e]) w = step e (run events w).
Proof. unfold run. by rewrite foldl_snoc. Qed.

Lemma reachable_consistent (w : World) :
  reachable w -> Forall consistent (eventSources w).
Proof.
  intros (storage & events & ->).
  induction events as [|e events IH] using rev_ind; [constructor|].
  rewrite run_snoc. by apply step_consistent.
Qed.

(** A closed source stays as it is. *)
Lemma step_closed_stable (e : Event) (w : World) (handle : nat) (es : EventSource) :
  eventSources w !! handle = Some es -> closed es = true ->
  eventSources (step e w) !! handle = Some es.
Proof.
  intros Hes Hclosed.
  destruct (step_sources e w) as [->|[(fresh & -> & _)|(other & Hopen & ->)]].
  - done.
  - by apply lookup_app_l_Some.
  - rewrite list_lookup_alter_ne; [done|].
    intros ->. unfold is_open in Hopen. rewrite Hes, Hclosed in Hopen. done.
Qed.

Lemma run_closed_stable (events : list Event) (w : World) (handle : nat)
    (es : EventSource) :
  eventSources w !! handle = Some es -> closed es = true ->
  eventSources (run events w) !! handle = Some es.
Proof.
  revert w. induction events as [|e events IH]; intros w Hes Hclosed; [done|].
  simpl. apply IH; [|done]. by apply step_closed_stable.
Qed.

(** *** Terminal events *)
Lemma terminal_step (w : World) (handle : nat) (e : Event) (k : ToastKind) :
  is_open w handle = true -> terminal handle e k ->
  exists t : Toast,
    kind t = k /\
    step e w =
      {| localStorage := localStorage w;
         toasts := toasts w ++ [t];
         eventSources := alter close_source handle (eventSources w);
         submissions := submissions w;
         renderProgress := JNull |}.
Proof.
  intros Hopen [event_data data Hparse Htype|event_data data Hparse Htype|];
    simpl; rewrite Hopen.
  - eexists. split; [|by apply (onmessage_complete _ _ data)]. done.
  - destruct (onmessage_error handle event_data data w Hparse Htype)
      as (msg & _ & ->).
    eexists. split; [|reflexivity]. done.
  - eexists. split; [|apply onerror_world]. done.
Qed.

(** C2. In a world the player can reach, a terminal event of an open source
    (a pushed 'complete', a pushed 'error', a transport error) closes that
    source with the one and only [close()] call it ever gets, shows exactly
    one toast (success for 'complete', failure otherwise) and resets
    [renderProgress] to null; whatever happens afterwards, the source stays
    closed and is not closed again. *)
Theorem terminal_event_closes_session (w : World) (handle : nat) (e : Event)
    (k : ToastKind) :
  reachable w -> is_open w handle = true -> terminal handle e k ->
  (exists es : EventSource,
     eventSources w !! handle = Some es /\ closeCalls es = 0%nat) /\
  (exists t : Toast, toasts (step e w) = toasts w ++ [t] /\ kind t = k) /\
  renderProgress (step e w) = JNull /\
  is_open (step e w) handle = false /\
  (forall later : list Event,
     exists es : EventSource,
       eventSources (run later (step e w)) !! handle = Some es /\
       closed es = true /\ closeCalls es = 1%nat).
Proof.
  intros Hreach Hopen Hterm.
  destruct (terminal_step w handle e k Hopen Hterm) as (t & Hk & Hstep).
  unfold is_open in Hopen.
  destruct (eventSources w !! handle) as [es|] eqn:Hes; [|done].
  assert (Hcalls : closeCalls es = 0%nat).
  { pose proof (reachable_consistent w Hreach) as Hall.
    rewrite Forall_lookup in Hall. specialize (Hall _ _ Hes).
    unfold consistent in Hall. by destruct (closed es). }
  assert (Hafter : eventSources (step e w) !! handle = Some (close_source es)).
  { rewrite Hstep. simpl. by rewrite list_lookup_alter_eq, Hes. }
  split; [by exists es|].
  split; [exists t; by rewrite Hstep|].
  split; [by rewrite Hstep|].
  split; [unfold is_open; by rewrite Hafter|].
  intros later. exists (close_source es).
  split; [by apply run_closed_stable|].
  split; [done|]. simpl. by rewrite Hcalls.
Qed.

(** *** Validation *)
Lemma handleRenderVideo_rejects (c : Closure) (w : World) :
  is_falsy (localStorage w !! "currentAudioMetadata")
    || (length (lyricsData c) =? 0)%nat = true ->
  handleRenderVideo c w = (Normal tt, push_toast cannotRender w).
Proof. intros Hcheck. unfold_handlers. by rewrite Hcheck. Qed.

(** Past the validation no toast is shown by [handleRenderVideo] itself. *)
Lemma handleRenderVideo_accepts (c : Closure) (w : World) :
  is_falsy (localStorage w !! "currentAudioMetadata")
    || (length (lyricsData c) =? 0)%nat = false ->
  toasts (snd (handleRenderVideo c w)) = toasts w.
Proof.
  intros Hcheck. unfold_handlers. rewrite Hcheck.
  destruct (localStorage w !! _) as [stored|]; simpl; [|done].
  destruct (JSON_parse stored) as [e|audioMetadata]; simpl; [done|].
  by destruct (fileName_of audioMetadata).
Qed.

Lemma check_spec (c : Closure) (w : World) :
  is_falsy (localStorage w !! "currentAudioMetadata")
    || (length (lyricsData c) =? 0)%nat = true <->
  localStorage w !! "currentAudioMetadata" = None \/
  localStorage w !! "currentAudioMetadata" = Some EmptyString \/
  lyricsData c = [].
Proof.
  rewrite orb_true_iff, Nat.eqb_eq, length_zero_iff_nil.
  destruct (localStorage w !! _) as [stored|]; simpl.
  - rewrite String.eqb_eq. split.
    + intros [->|Hl]; auto.
    + intros [Hn|[Hs|Hl]]; [done | left; congruence | by right].
  - split; auto.
Qed.

Lemma surfaces_cannotRender_iff (c : Closure) (w : World) :
  surfaces_cannotRender c w <->
  is_falsy (localStorage w !! "currentAudioMetadata")
    || (length (lyricsData c) =? 0)%nat = true.
Proof.
  unfold surfaces_cannotRender. split.
  - intros Hshown.
    destruct (is_falsy _ || _) eqn:Hcheck; [done|].
    rewrite (handleRenderVideo_accepts _ _ Hcheck) in Hshown.
    apply (f_equal length) in Hshown. rewrite length_app in Hshown.
    simpl in Hshown. lia.
  - intros Hcheck. by rewrite (handleRenderVideo_rejects _ _ Hcheck).
Qed.

(** C4. When [handleRenderVideo] runs with no usable 'currentAudioMetadata'
    entry (absent or empty) or with an empty derived lyric sequence, it shows
    the validation toast and returns: no EventSource is constructed, nothing
    is submitted, and [renderProgress] keeps its value, so an idle player
    stays idle. *)
Theorem validation_fails_fast (c : Closure) (w : World) :
  is_falsy (localStorage w !! "currentAudioMetadata") = true \/ lyricsData c = [] ->
  fst (handleRenderVideo c w) = Normal tt /\
  toasts (snd (handleRenderVideo c w)) = toasts w ++ [cannotRender] /\
  eventSources (snd (handleRenderVideo c w)) = eventSources w /\
  submissions (snd (handleRenderVideo c w)) = submissions w /\
  renderProgress (snd (handleRenderVideo c w)) = renderProgress w /\
  isRendering (snd (handleRenderVideo c w)) = isRendering w /\
  localStorage (snd (handleRenderVideo c w)) = localStorage w.
Proof.
  intros Hpre.
  rewrite handleRenderVideo_rejects; [done|].
  destruct Hpre as [-> | ->]; [done|]. apply orb_true_r.
Qed.

(** C9, amended. The validation toast is shown if and only if the
    'currentAudioMetadata' entry is absent or the empty string, or the
    derived lyric sequence is empty. The audio of the application store has
    no part in it, so the check and the button's [disabled] state can
    disagree in both directions. *)
Theorem validation_toast_characterised (c : Closure) (w : World) :
  (surfaces_cannotRender c w <->
   localStorage w !! "currentAudioMetadata" = None \/
   localStorage w !! "currentAudioMetadata" = Some EmptyString \/
   lyricsData c = []) /\
  (forall a : option AudioMeta,
     surfaces_cannotRender (with_audio a c) w <-> surfaces_cannotRender c w) /\
  (exists (c1 : Closure) (w1 : World),
     disabled c1 w1 = false /\ surfaces_cannotRender c1 w1) /\
  (exists (c2 : Closure) (w2 : World),
     disabled c2 w2 = true /\ ~ surfaces_cannotRender c2 w2).
Proof.
  split; [by rewrite surfaces_cannotRender_iff, check_spec|].
  split; [intros a; by rewrite !surfaces_cannotRender_iff|].
  split.
  - exists Demo.ready, (initial ∅). split; [reflexivity|].
    apply surfaces_cannotRender_iff. reflexivity.
  - exists Demo.noStoreAudio, (initial Demo.storageWithAudio).
    split; [reflexivity|].
    rewrite surfaces_cannotRender_iff. by vm_compute.
Qed.

End PlayerFacts.

Lemma terminal_event_closes_session_witness :
  let w := run (H := Demo.host)
             [Click Demo.ready; Message 0 "{type:rendering,progress:0.5}"]
             (initial Demo.storageWithAudio) in
  let e := Message 0 "{type:complete,downloadUrl:x}" in
  is_open w 0 = true /\
  (exists t : Toast,
     toasts (step (H := Demo.host) e w) = toasts w ++ [t] /\ kind t = Success) /\
  renderProgress (step (H := Demo.host) e w) = JNull /\
  is_open (step (H := Demo.host) e w) 0 = false.
Proof.
  intros w e.
  assert (Hreach : reachable (H := Demo.host) w).
  { exists Demo.storageWithAudio. eexists. reflexivity. }
  assert (Hopen : is_open w 0 = true) by (vm_compute; reflexivity).
  assert (Hterm : terminal (H := Demo.host) 0 e Success).
  { apply (terminal_complete (H := Demo.host) 0 _
             (JObject [("type", JString "complete"); ("downloadUrl", JString "x")]));
      vm_compute; reflexivity. }
  destruct (terminal_event_closes_session (H := Demo.host) w 0 e Success
              Hreach Hopen Hterm) as (_ & Htoast & Hprogress & Hclosed & _).
  auto.
Defined.

Lemma validation_fails_fast_witness :
  let w := initial Demo.storageWithAudio in
  lyricsData Demo.noLyrics = [] /\
  toasts (snd (handleRenderVideo (H := Demo.host) Demo.noLyrics w)) = [cannotRender] /\
  eventSources (snd (handleRenderVideo (H := Demo.host) Demo.noLyrics w)) = [] /\
  submissions (snd (handleRenderVideo (H := Demo.host) Demo.noLyrics w)) = [] /\
  renderProgress (snd (handleRenderVideo (H := Demo.host) Demo.noLyrics w)) = JNull.
Proof.
  intros w.
  destruct (validation_fails_fast (H := Demo.host) Demo.noLyrics w
              (or_intror eq_refl)) as (_ & Ht & Hs & Hm & Hp & _).
  auto.
Defined.

(** C9, as stated, fails: with an empty string stored under
    'currentAudioMetadata' and lyric lines present, the validation toast is
    shown although the entry is not absent. *)
Lemma validation_toast_absent_counterexample :
  let w := initial Demo.storageWithEmptyEntry in
  ~ (surfaces_cannotRender (H := Demo.host) Demo.ready w <->
     localStorage w !! "currentAudioMetadata" = None \/
     lyricsData Demo.ready = []).
Proof.
  intros w [Hshown _].
  destruct Hshown as [Habsent|Hempty]; [|done|done].
  apply surfaces_cannotRender_iff. reflexivity.
Qed.

(** A settled submission never touches the sources. *)
Lemma settle_keeps_sources `{Host} (k : nat) (f : Fetch) (w : World) :
  eventSources (step (Settle k f) w) = eventSources w.
Proof.
  simpl. destruct (is_pending w k); [|done]. by rewrite renderVideo_sources.
Qed.

(** C3. The code does not close the source when the submission fails: after
    a render is triggered and the renderer turns the submission down, or
    cannot be reached, the failure toast of [renderVideo] is shown and the
    EventSource opened by [handleRenderVideo] is still open, with no
    [close()] call; if a progress event had arrived before, [renderProgress]
    keeps it and the player stays in its rendering state. *)
Theorem failed_submission_leaves_source_open :
  let start := run (H := Demo.host) [Click Demo.ready] (initial Demo.storageWithAudio) in
  let turnedDown := step (H := Demo.host) (Settle 0 Demo.turnedDown) start in
  let unreachable := step (H := Demo.host) (Settle 0 Demo.unreachable) start in
  let stuck := run (H := Demo.host)
                 [Message 0 "{type:bundling}"; Settle 0 Demo.turnedDown] start in
  is_open start 0 = true /\
  toasts turnedDown =
    [{| kind := Failure; title := "Render failed";
        description := JString "Composition not found" |}] /\
  eventSources turnedDown =
    [{| url := "http://localhost:3000/render-progress";
        closed := false; closeCalls := 0 |}] /\
  toasts unreachable =
    [{| kind := Failure; title := "Render failed";
        description := JString "Failed to fetch" |}] /\
  eventSources unreachable =
    [{| url := "http://localhost:3000/render-progress";
        closed := false; closeCalls := 0 |}] /\
  is_open stuck 0 = true /\ isRendering stuck = true.
Proof. vm_compute. repeat split. Qed.

Lemma validation_toast_characterised_witness :
  let w := initial Demo.storageWithEmptyEntry in
  localStorage w !! "currentAudioMetadata" = Some EmptyString /\
  surfaces_cannotRender (H := Demo.host) Demo.ready w.
Proof.
  intros w. split; [reflexivity|].
  apply (proj1 (validation_toast_characterised (H := Demo.host) Demo.ready w)).
  right; left. reflexivity.
Defined.

End SessionFacts.

(** ** The lyric extraction call *)
Module ApiFacts.
Import Session Api.

(** C10. [extractLyricsFromVideo] never rejects: whatever [fetch] does, the
    returned promise is fulfilled, and when the request fails (network error
    or a response that is not ok) it is fulfilled with
    {lyrics: [], source: 'none', confidence: 0}. *)
Theorem extractLyricsFromVideo_never_rejects (API_BASE_URL : string)
    (fetch : Request -> Fetch) (videoId title channelTitle : string) :
  (exists v : json,
     snd (extractLyricsFromVideo API_BASE_URL fetch videoId title channelTitle)
       = Normal v) /\
  (request_failed (fetch (extract_request API_BASE_URL videoId title channelTitle))
     = true ->
   snd (extractLyricsFromVideo API_BASE_URL fetch videoId title channelTitle)
     = Normal emptyResult).
Proof.
  unfold extractLyricsFromVideo, extract_attempt.
  destruct (fetch _) as [e|[isok payload]]; simpl.
  - split; eauto.
  - destruct isok, payload as [e|result]; simpl; split; eauto; discriminate.
Qed.

Lemma extractLyricsFromVideo_never_rejects_witness :
  request_failed Demo.turnedDown = true /\
  snd (extractLyricsFromVideo "http://localhost:8000/api"
         (fun _ => Demo.turnedDown) "dQw4" "Song" "Band") = Normal emptyResult /\
  snd (extractLyricsFromVideo "http://localhost:8000/api"
         (fun _ => Demo.unreachable) "dQw4" "Song" "Band") = Normal emptyResult.
Proof.
  split; [reflexivity|]. split.
  - apply (proj2 (extractLyricsFromVideo_never_rejects _
                    (fun _ => Demo.turnedDown) _ _ _)). reflexivity.
  - apply (proj2 (extractLyricsFromVideo_never_rejects _
                    (fun _ => Demo.unreachable) _ _ _)). reflexivity.
Defined.

End ApiFacts.

(** ** URLs and request wrappers of the data layer *)
Module DataLayerFacts.
Import Session DataLayer.

(** *** Taking a marker out of an id *)
Lemma append_nil (b : string) : EmptyString +:+ b = b.
Proof. reflexivity. Qed.

Lemma append_cons (x : Ascii.ascii) (a b : string) :
  String x a +:+ b = String x (a +:+ b).
Proof. reflexivity. Qed.

Lemma append_assoc (a b c : string) : (a +:+ b) +:+ c = a +:+ (b +:+ c).
Proof.
  induction a as [|x a IH]; [done|]. rewrite !append_cons. by f_equal.
Qed.

Lemma append_length (a b : string) :
  String.length (a +:+ b) = (String.length a + String.length b)%nat.
Proof.
  induction a as [|x a IH]; [done|]. rewrite append_cons. simpl. by rewrite IH.
Qed.

Lemma strip_prefix_app (p rest : string) : strip_prefix p (p +:+ rest) = Some rest.
Proof.
  induction p as [|x p IH]; [by destruct rest|].
  rewrite append_cons. simpl. by rewrite Ascii.eqb_refl.
Qed.

Lemma strip_prefix_Some (p s rest : string) :
  strip_prefix p s = Some rest -> s = p +:+ rest.
Proof.
  revert s. induction p as [|x p IH]; intros s; simpl.
  - intros [= ->]. reflexivity.
  - destruct s as [|y s]; [done|].
    destruct (Ascii.eqb x y) eqn:E; [|done].
    apply Ascii.eqb_eq in E as ->. intros Hs.
    rewrite append_cons. by rewrite (IH _ Hs).
Qed.

(** Without an occurrence of the marker the string is returned as it is. *)
Lemma remove_first_absent (p s : string) :
  (forall a b, s <> a +:+ p +:+ b) -> remove_first p s = s.
Proof.
  induction s as [|c s IH]; intros Habsent.
  - destruct p; simpl; [|done]. by destruct (Habsent EmptyString EmptyString).
  - simpl. destruct (strip_prefix p (String c s)) as [rest|] eqn:E.
    + apply strip_prefix_Some in E. by destruct (Habsent EmptyString rest).
    + destruct p as [|x p]; [done|]. f_equal. apply IH.
      intros a b ->. by apply (Habsent (String c a) b).
Qed.

(** The leftmost occurrence is the one taken out. *)
Lemma remove_first_leftmost (p a b : string) :
  (forall a' b', a +:+ p +:+ b = a' +:+ p +:+ b' ->
     (String.length a <= String.length a')%nat) ->
  remove_first p (a +:+ p +:+ b) = a +:+ b.
Proof.
  induction a as [|c a IH]; intros Hleft.
  - rewrite !append_nil.
    destruct (p +:+ b) as [|y s] eqn:Hs; simpl.
    + destruct p; [|done]. by rewrite append_nil in Hs.
    + rewrite <- Hs, strip_prefix_app. done.
  - rewrite !append_cons. simpl.
    destruct (strip_prefix p (String c (a +:+ p +:+ b))) as [rest|] eqn:E.
    + apply strip_prefix_Some in E.
      specialize (Hleft EmptyString rest). rewrite append_cons in Hleft.
      specialize (Hleft E). simpl in Hleft. lia.
    + destruct p as [|x p]; [done|]. f_equal. apply IH.
      intros a' b' Heq.
      assert (Heq' : String c a +:+ String x p +:+ b
                     = String c a' +:+ String x p +:+ b').
      { rewrite !(append_cons c). by f_equal. }
      specialize (Hleft _ _ Heq'). simpl in Hleft. lia.
Qed.

(** X1. [getCoverArtUrl] and the URL of [getAudioMetadata] repeat the id in
    two path segments, the second one without its leftmost
    'youtube-virtual-' marker: an id without the marker appears twice as it
    is, a virtual id appears in full and then stripped, and a missing id of
    [getCoverArtUrl] yields the literal segment 'undefined' twice. *)
Theorem id_segments_of_urls (base : string) :
  getCoverArtUrl base None = base +:+ "/audio/undefined/cover/undefined" /\
  (forall id : string,
     (forall a b, id <> a +:+ "youtube-virtual-" +:+ b) ->
     getCoverArtUrl base (Some id)
       = base +:+ "/audio/" +:+ id +:+ "/cover/" +:+ id /\
     getAudioMetadata_url base id
       = base +:+ "/audio/" +:+ id +:+ "/meta/" +:+ id) /\
  (forall a b : string,
     (forall a' b',
        a +:+ "youtube-virtual-" +:+ b = a' +:+ "youtube-virtual-" +:+ b' ->
        (String.length a <= String.length a')%nat) ->
     getCoverArtUrl base (Some (a +:+ "youtube-virtual-" +:+ b))
       = base +:+ "/audio/" +:+ (a +:+ "youtube-virtual-" +:+ b)
              +:+ "/cover/" +:+ (a +:+ b) /\
     getAudioMetadata_url base (a +:+ "youtube-virtual-" +:+ b)
       = base +:+ "/audio/" +:+ (a +:+ "youtube-virtual-" +:+ b)
              +:+ "/meta/" +:+ (a +:+ b)).
Proof.
  split; [reflexivity|]. split.
  - intros id Habsent. unfold getCoverArtUrl, getAudioMetadata_url. simpl.
    by rewrite (remove_first_absent _ _ Habsent).
  - intros a b Hleft. unfold getCoverArtUrl, getAudioMetadata_url. simpl.
    by rewrite (remove_first_leftmost _ _ _ Hleft).
Qed.

Lemma id_segments_of_urls_witness :
  getCoverArtUrl "http://localhost:8000/api" (Some "youtube-virtual-dQw4")
    = "http://localhost:8000/api/audio/youtube-virtual-dQw4/cover/dQw4" /\
  getCoverArtUrl "http://localhost:8000/api" (Some "7")
    = "http://localhost:8000/api/audio/7/cover/7".
Proof.
  split.
  - destruct (proj2 (proj2 (id_segments_of_urls "http://localhost:8000/api"))
                EmptyString "dQw4") as [Hcover _].
    + intros a' b' _. simpl. lia.
    + exact Hcover.
  - destruct (proj1 (proj2 (id_segments_of_urls "http://localhost:8000/api"))
                "7") as [Hcover _].
    + intros a b Heq. apply (f_equal String.length) in Heq.
      rewrite !append_length in Heq. simpl in Heq. lia.
    + exact Hcover.
Defined.

(** *** The request wrappers *)
Ltac unfold_wrappers :=
  unfold getAllProjects, getLyrics, getAudioMetadata, saveLyrics, deleteProject,
    createProjectFromYouTube, uploadAudioFile, renderVideo, await_fetch,
    try_catch, bind, lift, ret, throw, modify, toast_success, toast_error in *.

Ltac by_cases_on_fetch f :=
  let e := fresh "e" in
  let isok := fresh "isok" in
  let payload := fresh "payload" in
  destruct f as [e|[isok [e|payload]]]; [|destruct isok|destruct isok]; simpl.

(** X2. No wrapper with a [catch] block rejects silently: whenever
    [getAllProjects], [getLyrics], [getAudioMetadata], [saveLyrics],
    [deleteProject], [createProjectFromYouTube] or [renderVideo] rejects, the
    last toast shown is the failure toast of that wrapper carrying the
    message of the very error it rejects with. *)
Theorem rejections_are_reported `{Host} (f : Fetch) (video_title : string) :
  reports_rejections "Projects fetch failed" (getAllProjects f) /\
  reports_rejections "Lyrics fetch failed" (getLyrics f) /\
  reports_rejections "Metadata fetch failed" (getAudioMetadata f) /\
  reports_rejections "Lyrics save failed" (saveLyrics f) /\
  reports_rejections "Project deletion failed" (deleteProject f) /\
  reports_rejections "Project creation failed"
    (createProjectFromYouTube video_title f) /\
  reports_rejections "Render failed" (renderVideo f).
Proof.
  repeat split; intros w w' err; unfold_wrappers; by_cases_on_fetch f;
    try discriminate;
    try (intros [= <- <-]; by exists []);
    repeat match goal with
           | |- context [get ?v ?p] => destruct (get v p); simpl
           | |- context [ToString ?x] => destruct (ToString x); simpl
           | |- context [ToString_json ?x] => destruct (ToString_json x); simpl
           end;
    try discriminate;
    try (intros [= <- <-]; by exists []);
    intros [= <- <-]; eexists [_]; simpl; by rewrite <- app_assoc.
Qed.

Lemma rejections_are_reported_witness :
  exists shown : list Toast,
    toasts (snd (getAllProjects Demo.unreachable (initial ∅)))
      = shown ++ [failure_toast "Projects fetch failed" (TypeError "Failed to fetch")].
Proof.
  destruct (proj1 (rejections_are_reported (H := Demo.host)
                     Demo.unreachable EmptyString)
              (initial ∅) _ _ eq_refl) as [shown Hshown].
  exists shown. exact Hshown.
Defined.

(** X3. [getAllProjects], [getLyrics] and [getAudioMetadata] fulfil exactly
    when the response is ok and its body parses; the value is that body, and
    a fulfilled call shows no toast and changes nothing. *)
Theorem read_wrappers_fulfil (f : Fetch) (w : World) (v : json) :
  (fst (getAllProjects f w) = Normal v <->
     f = Resolves {| ok := true; body := inr v |}) /\
  (fst (getLyrics f w) = Normal v <->
     f = Resolves {| ok := true; body := inr v |}) /\
  (fst (getAudioMetadata f w) = Normal v <->
     f = Resolves {| ok := true; body := inr v |}) /\
  (fst (getAllProjects f w) = Normal v -> snd (getAllProjects f w) = w) /\
  (fst (getLyrics f w) = Normal v -> snd (getLyrics f w) = w) /\
  (fst (getAudioMetadata f w) = Normal v -> snd (getAudioMetadata f w) = w).
Proof.
  repeat split; unfold_wrappers; by_cases_on_fetch f;
    try discriminate; try congruence; intros [= ->]; reflexivity.
Qed.

Lemma read_wrappers_fulfil_witness :
  let f := Resolves {| ok := true; body := inr (JArray []) |} in
  getAllProjects f (initial ∅) = (Normal (JArray []), initial ∅).
Proof.
  intros f.
  destruct (read_wrappers_fulfil f (initial ∅) (JArray []))
    as (Hiff & _ & _ & Hsilent & _).
  pose proof (proj2 Hiff eq_refl) as Hvalue.
  pose proof (Hsilent Hvalue) as Hworld.
  destruct (getAllProjects f (initial ∅)) as [r w']. simpl in *.
  by rewrite Hvalue, Hworld.
Defined.

(** X4. [saveLyrics] announces success before it reads the ids: on an ok
    response whose body is [null] the user is shown 'Lyrics saved' and then
    'Lyrics save failed', and the call rejects; on any other parsed body it
    shows 'Lyrics saved' only and fulfils with the two ids read from the
    body. *)
Theorem saveLyrics_announces_before_reading (result : json) (w : World) :
  let saved := {| kind := Success; title := "Lyrics saved";
                  description := JString "Lyrics have been successfully saved" |} in
  let outcome := saveLyrics (Resolves {| ok := true; body := inr result |}) w in
  (result = JNull ->
   exists e : Error,
     fst outcome = Throw e /\
     toasts (snd outcome)
       = toasts w ++ [saved; failure_toast "Lyrics save failed" e]) /\
  (result <> JNull ->
   exists lyricsId projectId : value,
     get result "lyricsId" = inr lyricsId /\
     get result "projectId" = inr projectId /\
     outcome = (Normal (lyricsId, projectId), push_toast saved w)).
Proof.
  intros saved outcome. subst outcome. split.
  - intros ->. eexists. split; [reflexivity|]. simpl. by rewrite <- app_assoc.
  - intros Hnot. destruct result; try done; by eexists _, _.
Qed.

Lemma saveLyrics_announces_before_reading_witness :
  length (toasts (snd (saveLyrics
                         (Resolves {| ok := true; body := inr JNull |})
                         (initial ∅)))) = 2%nat.
Proof.
  destruct (proj1 (saveLyrics_announces_before_reading JNull (initial ∅)) eq_refl)
    as (e & _ & Htoasts).
  by rewrite Htoasts.
Defined.

(** X5. [deleteProject] never reads the response body: it fulfils, with the
    'Project deleted' toast, exactly when [fetch] resolves to an ok response,
    whatever the body is or whether it parses. *)
Theorem deleteProject_ignores_body (f : Fetch) (w : World) :
  (fst (deleteProject f w) = Normal tt <->
     exists response : Response, f = Resolves response /\ ok response = true) /\
  (forall (isok : bool) (b1 b2 : Error + json),
     deleteProject (Resolves {| ok := isok; body := b1 |}) w
     = deleteProject (Resolves {| ok := isok; body := b2 |}) w).
Proof.
  split.
  - unfold_wrappers. by_cases_on_fetch f; split; try discriminate; eauto;
      intros (response & Heq & Hok); try discriminate;
      injection Heq as <-; discriminate.
  - intros isok b1 b2. by destruct isok.
Qed.

Lemma deleteProject_ignores_body_witness :
  fst (deleteProject
         (Resolves {| ok := true;
                      body := inl {| name := "SyntaxError";
                                     message := "Unexpected end of JSON input" |} |})
         (initial ∅)) = Normal tt.
Proof.
  apply (proj2 (proj1 (deleteProject_ignores_body _ (initial ∅)))).
  eexists. split; reflexivity.
Defined.

(** X6. On a response that is not ok, [uploadAudioFile] and [renderVideo]
    reject with the [message] of the error body when it is a non-empty
    string, and with their own default text ('Upload failed', 'Render
    failed') when that member is missing or falsy; [renderVideo] shows the
    same text in its failure toast, [uploadAudioFile] shows nothing. *)
Theorem server_message_or_default `{Host} (errorData : json) (w : World) :
  let failed := Resolves {| ok := false; body := inr errorData |} in
  (forall m : string,
     get errorData "message" = inr (Some (JString m)) -> m <> EmptyString ->
     uploadAudioFile failed w = (Throw (new_Error m), w) /\
     renderVideo failed w
       = (Throw (new_Error m),
          push_toast (failure_toast "Render failed" (new_Error m)) w)) /\
  (forall msg : value,
     get errorData "message" = inr msg -> ToBoolean msg = false ->
     uploadAudioFile failed w = (Throw (new_Error "Upload failed"), w) /\
     renderVideo failed w
       = (Throw (new_Error "Render failed"),
          push_toast (failure_toast "Render failed" (new_Error "Render failed")) w)).
Proof.
  intros failed. subst failed. split.
  - intros m Hget Hm. unfold_wrappers. simpl. rewrite Hget. simpl.
    apply String.eqb_neq in Hm. by rewrite Hm.
  - intros msg Hget Hfalsy. unfold_wrappers. simpl. rewrite Hget. simpl.
    unfold or_default. rewrite Hfalsy. by destruct msg.
Qed.

Lemma server_message_or_default_witness :
  fst (uploadAudioFile (H := Demo.host) Demo.turnedDown (initial ∅))
    = Throw (new_Error "Composition not found") /\
  fst (uploadAudioFile (H := Demo.host)
         (Resolves {| ok := false; body := inr (JObject []) |}) (initial ∅))
    = Throw (new_Error "Upload failed").
Proof.
  split.
  - destruct (proj1 (server_message_or_default (H := Demo.host)
                       (JObject [("message", JString "Composition not found")])
                       (initial ∅))
                "Composition not found" eq_refl ltac:(discriminate))
      as [Hupload _].
    unfold Demo.turnedDown. by rewrite Hupload.
  - destruct (proj2 (server_message_or_default (H := Demo.host)
                       (JObject []) (initial ∅))
                None eq_refl eq_refl) as [Hupload _].
    by rewrite Hupload.
Defined.

(** X7. [uploadAudioFile] never shows a toast and never changes anything,
    also when it rejects; it fulfils exactly when the response is ok and its
    body parses, with that body. *)
Theorem uploadAudioFile_is_silent `{Host} (f : Fetch) (w : World) :
  snd (uploadAudioFile f w) = w /\
  (forall v : json,
     fst (uploadAudioFile f w) = Normal v <->
     f = Resolves {| ok := true; body := inr v |}).
Proof.
  split; [|intros v; split]; unfold_wrappers; by_cases_on_fetch f;
    try done; try congruence;
    destruct (get payload "message") as [e'|msg]; simpl; try done;
    match goal with
    | |- context [ToString_json ?x] => by destruct (ToString_json x)
    end.
Qed.

Lemma uploadAudioFile_is_silent_witness :
  fst (uploadAudioFile (H := Demo.host)
         (Resolves {| ok := true; body := inr (JObject []) |}) (initial ∅))
    = Normal (JObject []).
Proof.
  apply (proj2 (proj2 (uploadAudioFile_is_silent (H := Demo.host) _ (initial ∅))
                  (JObject []))).
  reflexivity.
Defined.

(** X8. Every call of [renderVideo] shows exactly one toast and changes
    nothing else: 'Render completed' when it fulfils, which happens only for
    an ok response whose body parses to something other than [null], and
    otherwise the 'Render failed' toast carrying the message of the error it
    rejects with. *)
Theorem renderVideo_one_toast `{Host} (f : Fetch) (w : World) :
  exists t : Toast,
    snd (renderVideo f w) = push_toast t w /\
    ((exists v : json,
        fst (renderVideo f w) = Normal v /\
        kind t = Success /\ title t = "Render completed" /\
        f = Resolves {| ok := true; body := inr v |} /\ v <> JNull)
     \/
     (exists e : Error,
        fst (renderVideo f w) = Throw e /\
        t = failure_toast "Render failed" e)).
Proof.
  unfold_wrappers. by_cases_on_fetch f;
    try (eexists; split; [reflexivity|]; right; by eexists).
  - destruct (get payload "fileName") as [e'|fileName] eqn:Hget; simpl.
    + eexists; split; [reflexivity|]; right; by eexists.
    + destruct (ToString fileName) as [e'|text]; simpl.
      * eexists; split; [reflexivity|]; right; by eexists.
      * eexists; split; [reflexivity|]. left. exists payload.
        repeat split. by destruct payload.
  - destruct (get payload "message") as [e'|msg]; simpl;
      [|match goal with
        | |- context [ToString_json ?x] => destruct (ToString_json x); simpl
        end];
      eexists; (split; [reflexivity|]); right; by eexists.
Qed.

End DataLayerFacts.

(** ** More on the render session *)
Module SessionMoreFacts.
Import JS Timing Session Views SessionFacts.

Section Handlers.
Context `{Host}.

(** The three ways a call of [handleRenderVideo] can go. *)
Lemma handleRenderVideo_cases (c : Closure) (w : World) :
  (is_falsy (localStorage w !! "currentAudioMetadata")
     || (length (lyricsData c) =? 0)%nat = true /\
   handleRenderVideo c w = (Normal tt, push_toast cannotRender w)) \/
  (exists e : Error, handleRenderVideo c w = (Throw e, w)) \/
  (exists (stored : string) (audioMetadata : json) (fileName : string),
     is_falsy (localStorage w !! "currentAudioMetadata")
       || (length (lyricsData c) =? 0)%nat = false /\
     localStorage w !! "currentAudioMetadata" = Some stored /\
     JSON_parse stored = inr audioMetadata /\
     fileName_of audioMetadata = inr fileName /\
     handleRenderVideo c w = (Normal tt, session_opened c fileName w)).
Proof.
  destruct (is_falsy _ || _) eqn:Hcheck.
  - left. split; [done|]. by apply handleRenderVideo_rejects.
  - right. unfold_handlers. rewrite Hcheck.
    destruct (localStorage w !! _) as [stored|] eqn:Hstored; simpl; [|done].
    destruct (JSON_parse stored) as [e|audioMetadata] eqn:Hparse; simpl;
      [left; by eexists|].
    destruct (fileName_of audioMetadata) as [e|fileName] eqn:Hname; simpl;
      [left; by eexists|].
    right. by exists stored, audioMetadata, fileName.
Qed.

(** What a dispatched message can do to the world. *)
Lemma onmessage_cases (handle : nat) (event_data : string) (w : World) :
  snd (onmessage handle event_data w) = w \/
  (exists data : json, snd (onmessage handle event_data w) = with_progress data w) \/
  (exists t : Toast,
     snd (onmessage handle event_data w) =
       {| localStorage := localStorage w;
          toasts := toasts w ++ [t];
          eventSources := alter close_source handle (eventSources w);
          submissions := submissions w;
          renderProgress := JNull |}).
Proof.
  unfold_handlers.
  destruct (JSON_parse event_data) as [e|data]; simpl; [by left|].
  destruct (get data "type") as [e|type] eqn:Htype; simpl;
    [right; left; by exists data|].
  destruct (is_string type "complete"); simpl; [right; right; by eexists|].
  destruct (is_string type "error"); simpl; [|right; left; by exists data].
  destruct (get_total data "type" "message" _ Htype) as [msg ->].
  right; right. by eexists.
Qed.

Lemma renderVideo_pushes (f : Fetch) (w : World) :
  exists t : Toast, snd (renderVideo f w) = push_toast t w.
Proof.
  unfold_handlers.
  destruct f as [e|[isok [e|payload]]]; simpl; try by eexists.
  all: destruct isok; simpl; try by eexists.
  - destruct (get payload "fileName") as [e|fileName]; simpl; [by eexists|].
    destruct_ToString; simpl; by eexists.
  - destruct (get payload "message") as [e|msg]; simpl; [by eexists|].
    destruct_ToString; simpl; by eexists.
Qed.

(** *** Invariants of the event loop *)
Lemma step_pairs (e : Event) (w : World) :
  length (eventSources w) = length (submissions w) ->
  length (eventSources (step e w)) = length (submissions (step e w)).
Proof.
  intros Hpair. destruct e as [storage|c|handle event_data|handle|k f]; simpl.
  - done.
  - destruct (disabled c w); [done|].
    destruct (handleRenderVideo_cases c w)
      as [[_ ->]|[[e ->]|(stored & meta & fileName & _ & _ & _ & _ & ->)]];
      simpl; try done.
    rewrite !length_app. simpl. lia.
  - destruct (is_open w handle); [|done].
    destruct (onmessage_cases handle event_data w) as [->|[[data ->]|[t ->]]];
      simpl; try done.
    by rewrite length_alter.
  - destruct (is_open w handle); [|done]. simpl. by rewrite length_alter.
  - destruct (is_pending w k); [|done].
    destruct (renderVideo_pushes f
                (set_submissions (alter settle_submission k (submissions w)) w))
      as [t ->].
    simpl. by rewrite length_alter.
Qed.

Lemma step_localStorage (e : Event) (w : World) :
  (forall storage, e <> StorageChange storage) ->
  localStorage (step e w) = localStorage w.
Proof.
  intros Hnot. destruct e as [storage|c|handle event_data|handle|k f]; simpl.
  - by destruct (Hnot storage).
  - destruct (disabled c w); [done|].
    by destruct (handleRenderVideo_cases c w)
      as [[_ ->]|[[e ->]|(stored & meta & fileName & _ & _ & _ & _ & ->)]].
  - destruct (is_open w handle); [|done].
    by destruct (onmessage_cases handle event_data w) as [->|[[data ->]|[t ->]]].
  - by destruct (is_open w handle).
  - destruct (is_pending w k); [|done].
    by destruct (renderVideo_pushes f
                   (set_submissions (alter settle_submission k (submissions w)) w))
      as [t ->].
Qed.

Lemma step_toasts (e : Event) (w : World) :
  toasts (step e w) = toasts w \/
  exists t : Toast, toasts (step e w) = toasts w ++ [t].
Proof.
  destruct e as [storage|c|handle event_data|handle|k f]; simpl.
  - by left.
  - destruct (disabled c w); [by left|].
    destruct (handleRenderVideo_cases c w)
      as [[_ ->]|[[e ->]|(stored & meta & fileName & _ & _ & _ & _ & ->)]];
      simpl; [right; by eexists | by left | by left].
  - destruct (is_open w handle); [|by left].
    destruct (onmessage_cases handle event_data w) as [->|[[data ->]|[t ->]]];
      simpl; [by left | by left | right; by eexists].
  - destruct (is_open w handle); [|by left]. right. by eexists.
  - destruct (is_pending w k); [|by left].
    destruct (renderVideo_pushes f
                (set_submissions (alter settle_submission k (submissions w)) w))
      as [t ->].
    right. by eexists.
Qed.

(** X9. In every world the player can reach there are as many EventSources
    as submitted jobs: [handleRenderVideo] opens a progress connection
    exactly when it goes on to submit, and no other handler adds or drops
    either. *)
Theorem sources_pair_with_submissions (w : World) :
  reachable w -> length (eventSources w) = length (submissions w).
Proof.
  intros (storage & events & ->).
  induction events as [|e events IH] using rev_ind; [done|].
  rewrite run_snoc. by apply step_pairs.
Qed.

(** X10. In every world the player can reach, [close()] has been called at
    most once on each EventSource, and exactly once on those that are
    closed: no handler closes a source a second time. *)
Theorem close_called_at_most_once (w : World) (handle : nat) (es : EventSource) :
  reachable w -> eventSources w !! handle = Some es ->
  (closeCalls es <= 1)%nat /\ (closed es = true <-> closeCalls es = 1%nat).
Proof.
  intros Hreach Hes.
  pose proof (reachable_consistent w Hreach) as Hall.
  rewrite Forall_lookup in Hall. specialize (Hall _ _ Hes).
  unfold consistent in Hall. destruct (closed es); rewrite Hall.
  - split; [lia | done].
  - split; [lia | split; done].
Qed.

(** X11. The handlers of the player never write [localStorage], and a turn
    of the event loop never removes a toast and shows at most one. *)
Theorem turn_keeps_storage_and_toasts (e : Event) (w : World) :
  ((forall storage, e <> StorageChange storage) ->
   localStorage (step e w) = localStorage w) /\
  (toasts (step e w) = toasts w \/
   exists t : Toast, toasts (step e w) = toasts w ++ [t]).
Proof. split; [apply step_localStorage | apply step_toasts]. Qed.

(** X12. A settled submission, fulfilled or rejected, never ends the
    session: it leaves every EventSource as it is and does not touch
    [renderProgress], so only the channel can close the connection and
    re-enable the button. *)
Theorem settle_never_ends_session (k : nat) (f : Fetch) (w : World) :
  eventSources (step (Settle k f) w) = eventSources w /\
  renderProgress (step (Settle k f) w) = renderProgress w.
Proof.
  simpl. destruct (is_pending w k); [|done].
  by destruct (renderVideo_pushes f
                 (set_submissions (alter settle_submission k (submissions w)) w))
    as [t ->].
Qed.

(** *** Messages that do not end the session *)

(** X13. A pushed payload whose [type] is neither 'complete' nor 'error'
    (such as 'bundling' or 'rendering') only replaces [renderProgress] by the
    parsed payload: no toast, the source stays open, nothing else changes. *)
Theorem progress_event_only_updates_progress (w : World) (handle : nat)
    (event_data : string) (data : json) (type : value) :
  is_open w handle = true ->
  JSON_parse event_data = inr data ->
  get data "type" = inr type ->
  is_string type "complete" = false ->
  is_string type "error" = false ->
  step (Message handle event_data) w = with_progress data w /\
  is_open (step (Message handle event_data) w) handle = true.
Proof.
  intros Hopen Hparse Htype Hnc Hne. simpl. rewrite Hopen.
  assert (Hstep : snd (onmessage handle event_data w) = with_progress data w).
  { unfold_handlers. by rewrite Hparse, Htype, Hnc, Hne. }
  rewrite Hstep. split; [done|]. exact Hopen.
Qed.

(** X14. A payload that does not parse changes nothing, the handler throws
    before any effect. A payload that parses to [null] resets
    [renderProgress] to null and then throws on reading [type]: the source
    stays open while the player shows as idle. *)
Theorem malformed_payloads (w : World) (handle : nat) (event_data : string) :
  (forall e : Error,
     JSON_parse event_data = inl e -> step (Message handle event_data) w = w) /\
  (is_open w handle = true -> JSON_parse event_data = inr JNull ->
   step (Message handle event_data) w = with_progress JNull w /\
   is_open (step (Message handle event_data) w) handle = true /\
   isRendering (step (Message handle event_data) w) = false).
Proof.
  split.
  - intros e Hparse. simpl. destruct (is_open w handle); [|done].
    unfold_handlers. by rewrite Hparse.
  - intros Hopen Hparse. simpl. rewrite Hopen.
    assert (Hstep : snd (onmessage handle event_data w) = with_progress JNull w).
    { unfold_handlers. by rewrite Hparse. }
    rewrite Hstep. split; [done|]. split; [exact Hopen | done].
Qed.

(** *** The trigger *)

(** X15. [handleRenderVideo] is all or nothing: when it throws (the stored
    metadata does not parse, or parses to null) nothing has happened, and
    when it returns it has either shown the validation toast only, or opened
    exactly one new, open EventSource together with exactly one new pending
    job that carries the render's input props and total frames, without any
    toast and without touching [renderProgress]. *)
Theorem handleRenderVideo_all_or_nothing (c : Closure) (w : World) :
  (forall e : Error,
     fst (handleRenderVideo c w) = Throw e -> snd (handleRenderVideo c w) = w) /\
  (fst (handleRenderVideo c w) = Normal tt ->
   snd (handleRenderVideo c w) = push_toast cannotRender w \/
   exists fileName : string,
     snd (handleRenderVideo c w) = session_opened c fileName w).
Proof.
  destruct (handleRenderVideo_cases c w)
    as [[_ ->]|[[e ->]|(stored & meta & fileName & _ & _ & _ & _ & ->)]]; simpl.
  - split; [done|]. by left.
  - split; [done|]. done.
  - split; [done|]. right. by exists fileName.
Qed.

(** X16. The output file is named '<title>-<artist>.mp4' after the stored
    metadata; a missing or null [metadata] member gives
    'lyrics-unknown.mp4'. No name is built, and the handler throws, when the
    stored value is [null], and also when the title is an object with a
    member named toString, which a template literal cannot convert. *)
Theorem outputFileName_defaults (audioMetadata : json) :
  (forall (members md : list (string * json)) (t a : string),
     audioMetadata = JObject members ->
     member members "metadata" = Some (JObject md) ->
     member md "title" = Some (JString t) -> t <> EmptyString ->
     member md "artist" = Some (JString a) -> a <> EmptyString ->
     fileName_of audioMetadata = inr (t +:+ "-" +:+ a +:+ ".mp4")) /\
  (get audioMetadata "metadata" = inr None \/
   get audioMetadata "metadata" = inr (Some JNull) ->
   fileName_of audioMetadata = inr "lyrics-unknown.mp4") /\
  (audioMetadata = JNull -> exists e : Error, fileName_of audioMetadata = inl e) /\
  (forall (members md hidden : list (string * json)) (shadow : json),
     audioMetadata = JObject members ->
     member members "metadata" = Some (JObject md) ->
     member md "title" = Some (JObject hidden) ->
     member hidden "toString" = Some shadow ->
     exists e : Error, fileName_of audioMetadata = inl e).
Proof.
  split; [|split; [|split]].
  - intros members md t a -> Hmd Ht Hne Ha Hna.
    unfold fileName_of. simpl. rewrite Hmd. simpl. rewrite Ht, Ha. simpl.
    apply String.eqb_neq in Hne, Hna. by rewrite Hne, Hna.
  - unfold fileName_of. by intros [-> | ->].
  - intros ->. by eexists.
  - intros members md hidden shadow -> Hmd Ht Hshadow.
    unfold fileName_of. simpl. rewrite Hmd. simpl. rewrite Ht. simpl.
    rewrite Hshadow. by eexists.
Qed.

(** X17. The disabled state of the button does not serialise triggers: if a
    click opens a session, the same click repeated before any progress event
    arrives opens a second one, and both sources are open. *)
Theorem second_click_opens_second_session (c : Closure) (w : World) :
  length (eventSources (step (Click c) w)) = S (length (eventSources w)) ->
  length (eventSources (run [Click c; Click c] w)) = S (S (length (eventSources w))) /\
  is_open (run [Click c; Click c] w) (length (eventSources w)) = true /\
  is_open (run [Click c; Click c] w) (S (length (eventSources w))) = true.
Proof.
  intros Hfirst. simpl in *.
  destruct (disabled c w) eqn:Hdis; [lia|].
  destruct (handleRenderVideo_cases c w)
    as [[_ Hcase]|[[e Hcase]
       |(stored & meta & fileName & Hcheck & Hstored & Hparse & Hname & Hcase)]];
    rewrite Hcase in *; simpl in *; try lia.
  assert (Hdis' : disabled c (session_opened c fileName w) = false) by exact Hdis.
  rewrite Hdis'.
  assert (Hsecond : handleRenderVideo c (session_opened c fileName w)
                    = (Normal tt,
                       session_opened c fileName (session_opened c fileName w))).
  { unfold_handlers. simpl. rewrite Hcheck, Hstored. simpl.
    by rewrite Hparse, Hname. }
  rewrite Hsecond. simpl. rewrite !length_app. simpl.
  split; [lia|]. unfold is_open. simpl. split.
  - rewrite lookup_app_l by (rewrite length_app; simpl; lia).
    by rewrite lookup_app_r, Nat.sub_diag by lia.
  - rewrite lookup_app_r by (rewrite length_app; simpl; lia).
    rewrite length_app. simpl.
    by replace (S (length (eventSources w)) - (length (eventSources w) + 1))%nat
      with 0%nat by lia.
Qed.

End Handlers.

Lemma sources_pair_with_submissions_witness :
  let w := run (H := Demo.host)
             [Click Demo.ready; Message 0 "{type:complete,downloadUrl:x}";
              Click Demo.ready; Settle 0 Demo.turnedDown]
             (initial Demo.storageWithAudio) in
  length (eventSources w) = 2%nat /\ length (submissions w) = 2%nat.
Proof.
  intros w.
  assert (Hpair : length (eventSources w) = length (submissions w)).
  { apply (sources_pair_with_submissions (H := Demo.host)).
    exists Demo.storageWithAudio. eexists. reflexivity. }
  split; [reflexivity | by rewrite <- Hpair].
Defined.

Lemma close_called_at_most_once_witness :
  let w := run (H := Demo.host)
             [Click Demo.ready; ConnectionError 0; ConnectionError 0;
              Message 0 "{type:complete,downloadUrl:x}"]
             (initial Demo.storageWithAudio) in
  exists es : EventSource,
    eventSources w !! 0%nat = Some es /\ closed es = true /\ closeCalls es = 1%nat.
Proof.
  intros w.
  assert (Hreach : reachable (H := Demo.host) w).
  { exists Demo.storageWithAudio. eexists. reflexivity. }
  exists {| url := "http://localhost:3000/render-progress";
            closed := true; closeCalls := 1 |}.
  assert (Hes : eventSources w !! 0%nat
                = Some {| url := "http://localhost:3000/render-progress";
                          closed := true; closeCalls := 1 |}) by reflexivity.
  split; [exact Hes|]. split; [reflexivity|].
  apply (proj2 (close_called_at_most_once (H := Demo.host) w 0 _ Hreach Hes)).
  reflexivity.
Defined.

Lemma turn_keeps_storage_and_toasts_witness :
  let w := run (H := Demo.host) [Click Demo.ready] (initial Demo.storageWithAudio) in
  localStorage (step (H := Demo.host) (ConnectionError 0) w)
    = Demo.storageWithAudio.
Proof.
  intros w.
  rewrite (proj1 (turn_keeps_storage_and_toasts (H := Demo.host)
                    (ConnectionError 0) w)); [reflexivity | discriminate].
Defined.

Lemma progress_event_only_updates_progress_witness :
  let w := run (H := Demo.host) [Click Demo.ready] (initial Demo.storageWithAudio) in
  let payload := JObject [("type", JString "rendering"); ("progress", JNumber (1 # 2))] in
  step (H := Demo.host) (Message 0 "{type:rendering,progress:0.5}") w
    = with_progress payload w.
Proof.
  intros w payload.
  apply (proj1 (progress_event_only_updates_progress (H := Demo.host)
                  w 0 "{type:rendering,progress:0.5}" payload
                  (Some (JString "rendering"))
                  eq_refl eq_refl eq_refl eq_refl eq_refl)).
Defined.

Lemma malformed_payloads_witness :
  let w := run (H := Samples.host) [Click Demo.ready] (initial Demo.storageWithAudio) in
  step (H := Samples.host) (Message 0 "{type:") w = w /\
  is_open (step (H := Samples.host) (Message 0 "null") w) 0 = true /\
  isRendering (step (H := Samples.host) (Message 0 "null") w) = false.
Proof.
  intros w. split.
  - apply (proj1 (malformed_payloads (H := Samples.host) w 0 "{type:")
             {| name := "SyntaxError"; message := "Unexpected token" |}).
    reflexivity.
  - destruct (proj2 (malformed_payloads (H := Samples.host) w 0 "null")
                eq_refl eq_refl) as (_ & Hopen & Hidle).
    by split.
Defined.

Lemma handleRenderVideo_all_or_nothing_witness :
  let w := initial Demo.storageWithAudio in
  snd (handleRenderVideo (H := Demo.host) Demo.ready w) = push_toast cannotRender w \/
  exists fileName : string,
    snd (handleRenderVideo (H := Demo.host) Demo.ready w)
      = session_opened Demo.ready fileName w.
Proof.
  intros w.
  apply (proj2 (handleRenderVideo_all_or_nothing (H := Demo.host) Demo.ready w)).
  reflexivity.
Defined.

Lemma outputFileName_defaults_witness :
  fileName_of (H := Demo.host)
    (JObject [("metadata", JObject [("title", JString "Song");
                                    ("artist", JString "Band")])])
    = inr "Song-Band.mp4" /\
  fileName_of (H := Demo.host) (JObject []) = inr "lyrics-unknown.mp4".
Proof.
  split.
  - apply (proj1 (outputFileName_defaults (H := Demo.host) _)
             [("metadata", JObject [("title", JString "Song");
                                    ("artist", JString "Band")])]
             [("title", JString "Song"); ("artist", JString "Band")]
             "Song" "Band"); try reflexivity; discriminate.
  - apply (proj1 (proj2 (outputFileName_defaults (H := Demo.host) (JObject [])))).
    by left.
Defined.

Lemma second_click_opens_second_session_witness :
  let w := initial Demo.storageWithAudio in
  length (eventSources (run (H := Demo.host) [Click Demo.ready; Click Demo.ready] w))
    = 2%nat /\
  is_open (run (H := Demo.host) [Click Demo.ready; Click Demo.ready] w) 1 = true.
Proof.
  intros w.
  destruct (second_click_opens_second_session (H := Demo.host) Demo.ready w eq_refl)
    as (Hlen & _ & Hopen).
  split; [exact Hlen | exact Hopen].
Defined.

End SessionMoreFacts.

(** ** More on the total frame count *)
Module TimingMoreFacts.
Import JS Timing JSFacts TimingFacts.

(** X18. On a non-empty derived sequence whose last end frame plus 30 is an
    integer binary64 holds exactly (magnitude at most 2^53), [totalFrames]
    is a whole number of frames, at least 30 past the end of the last line,
    or it is Infinity; it is never NaN, never negative Infinity and never
    fractional. *)
Theorem totalFrames_integer_or_infinite (current : option HTMLAudioElement)
    (lyricsData : list DerivedLyricLine) (lastLine : DerivedLyricLine) :
  last lyricsData = Some lastLine ->
  Z.abs (endFrame lastLine + 30) <= 2 ^ 53 ->
  (exists z : Z,
     totalFrames current lyricsData = ofZ z /\ endFrame lastLine + 30 <= z) \/
  totalFrames current lyricsData = PosInfinity.
Proof.
  intros Hlast Hbound.
  rewrite (totalFrames_unfold _ _ _ Hlast), audioFrames_spec.
  pose proof (audioFrames_not_NaN current) as Hnan.
  destruct (mul (audioDurationSeconds current) (ofZ 30)) as [| |q|];
    [done | | | by right].
  - left. exists (endFrame lastLine + 30). split; [|lia].
    change (add (ofZ (endFrame lastLine)) (ofZ 30) = ofZ (endFrame lastLine + 30)).
    by rewrite add_ofZ, round_integer.
  - change (Math_ceil (Finite q)) with (ofZ (Qceiling q)).
    rewrite Math_max_ofZ, add_ofZ.
    set (m := Z.max (Qceiling q) (endFrame lastLine)).
    assert (Hle : le (ofZ (endFrame lastLine + 30)) (round (inject_Z (m + 30))) = true).
    { rewrite <- (round_integer (endFrame lastLine + 30)) by done.
      apply round_mono. rewrite <- Zle_Qle. lia. }
    destruct (round_whole (m + 30)) as [H|[H|[z H]]]; rewrite H in Hle |- *.
    + by right.
    + done.
    + left. exists z. split; [done | by apply le_ofZ].
Qed.

Lemma totalFrames_integer_or_infinite_witness :
  let lyricsData := [ {| text := "a"; startFrame := 0; endFrame := 60 |} ] in
  (exists z : Z, totalFrames (Some {| duration := Finite (7 # 3) |}) lyricsData = ofZ z /\
                 90 <= z) \/
  totalFrames (Some {| duration := Finite (7 # 3) |}) lyricsData = PosInfinity.
Proof.
  intros lyricsData.
  destruct (totalFrames_integer_or_infinite
              (Some {| duration := Finite (7 # 3) |}) lyricsData
              {| text := "a"; startFrame := 0; endFrame := 60 |} eq_refl
              ltac:(vm_compute; discriminate))
    as [(z & Hz & Hle)|Hinf].
  - left. exists z. split; [exact Hz | exact Hle].
  - right. exact Hinf.
Defined.

(** X19. When the audio duration is unknown (no element, or NaN) or zero,
    the lyric timings alone decide: as long as the sum stays within the
    integers binary64 holds exactly (at most 2^53), [totalFrames] is
    max(0, endFrame of the last line) + 30. *)
Theorem totalFrames_from_lyrics_alone (current : option HTMLAudioElement)
    (lyricsData : list DerivedLyricLine) (lastLine : DerivedLyricLine) :
  last lyricsData = Some lastLine ->
  current = None \/ duration <$> current = Some NaN
    \/ duration <$> current = Some (Finite 0) ->
  endFrame lastLine + 30 <= 2 ^ 53 ->
  totalFrames current lyricsData = ofZ (Z.max 0 (endFrame lastLine) + 30).
Proof.
  intros Hlast Hunknown Hbound.
  rewrite (totalFrames_unfold _ _ _ Hlast), audioFrames_spec.
  assert (Hzero : audioDurationSeconds current = ofZ 0).
  { destruct Hunknown as [->|[Hd|Hd]]; [done| |];
      destruct current as [[d]|]; simpl in Hd; try done;
      injection Hd as ->; reflexivity. }
  rewrite Hzero.
  change (Math_ceil (mul (ofZ 0) (ofZ 30))) with (ofZ 0).
  rewrite Math_max_ofZ, add_ofZ. apply round_integer. lia.
Qed.

Lemma totalFrames_from_lyrics_alone_witness :
  totalFrames (Some {| duration := NaN |})
    [ {| text := "a"; startFrame := 0; endFrame := 60 |};
      {| text := "b"; startFrame := 60; endFrame := 150 |} ] = ofZ 180.
Proof.
  apply (totalFrames_from_lyrics_alone (Some {| duration := NaN |})
           [ {| text := "a"; startFrame := 0; endFrame := 60 |};
             {| text := "b"; startFrame := 60; endFrame := 150 |} ]
           {| text := "b"; startFrame := 60; endFrame := 150 |} eq_refl).
  - right; left. reflexivity.
  - vm_compute. discriminate.
Defined.

End TimingMoreFacts.

(** ** More on the lyric extraction call *)
Module ApiMoreFacts.
Import Session Api.

(** X20. [extractLyricsFromVideo] warns on the console exactly when it falls
    back to the empty result, and then with the one error that made it fall
    back; otherwise it hands back the parsed body of the ok response as it
    is, unchecked. *)
Theorem extract_warns_iff_fallback (API_BASE_URL : string)
    (fetch : Request -> Fetch) (videoId title channelTitle : string) :
  let outcome := extractLyricsFromVideo API_BASE_URL fetch videoId title channelTitle in
  let answer := fetch (extract_request API_BASE_URL videoId title channelTitle) in
  (forall v : json,
     answer = Resolves {| ok := true; body := inr v |} ->
     outcome = ([], Normal v)) /\
  ((forall v : json, answer <> Resolves {| ok := true; body := inr v |}) ->
   exists e : Error, outcome = ([e], Normal emptyResult)).
Proof.
  intros outcome answer. subst outcome answer.
  unfold extractLyricsFromVideo, extract_attempt.
  destruct (fetch _) as [e|[isok payload]]; simpl.
  - split; [intros v Heq; inversion Heq | intros _; by eexists].
  - destruct isok, payload as [e|result]; simpl; split;
      try (intros v Heq; inversion Heq; subst; reflexivity);
      intros Hnot; try (by eexists).
    by destruct (Hnot result).
Qed.

Lemma extract_warns_iff_fallback_witness :
  extractLyricsFromVideo "http://localhost:8000/api"
    (fun _ => Resolves {| ok := true; body := inr JNull |}) "dQw4" "Song" "Band"
  = ([], Normal JNull).
Proof.
  apply (proj1 (extract_warns_iff_fallback "http://localhost:8000/api"
                  (fun _ => Resolves {| ok := true; body := inr JNull |})
                  "dQw4" "Song" "Band") JNull).
  reflexivity.
Defined.

End ApiMoreFacts.
